(** * Verification of the lap-segmentation, CLI-fusion, insight and dead-reckoning
    pipeline of mental-fatigue-propagation (src/src/*.py).

    Floating-point columns are modelled by exact rationals [Q] where the code only
    does field arithmetic and comparisons, and by the reals [R] where it uses
    trigonometry (the track reconstructor).  Non-finite float results that the
    code can produce (division of a float by zero, max of an empty column) are
    modelled explicitly where a claim depends on them. *)

From Stdlib Require Import ZArith QArith Qround String List Bool Lia Lqa Psatz.
From Stdlib Require Import Sorting.Permutation Sorting.Sorted Reals Ascii Qabs Qminmax.
Import ListNotations.

(** ** src/src/segment_lap.py *)
Module SegmentLap.

Local Open Scope Q_scope.

(** One per-sample row; [row_id] stands for the other columns of the table,
    [lapdist] is the column [Laptrigger_lapdist_dls]. *)
Record Row := mkRow { row_id : nat; lapdist : Q }.

(** A row of the returned table: the input row plus its [segment_id] column. *)
Record SegRow := mkSegRow { srow : Row; segment_id : Z }.

(** float64 values that are not finite, as produced by [max] of an empty column
    or by a division by zero. *)
Inductive ext := EFin (q : Q) | EPInf | ENInf | ENaN.

(** The float result of a floor division [d // len]: an integer or non-finite. *)
Inductive quot := QFin (z : Z) | QPInf | QNInf | QNaN.

(** pandas raises [IntCastingNaNError] when [astype(int)] meets NA or inf. *)
Inductive seg_error := IntCastingNaNError.

Inductive result (A : Type) := Ok (a : A) | Err (e : seg_error).
Arguments Ok {A} a.
Arguments Err {A} e.

(** [df.sort_values('Laptrigger_lapdist_dls')]: an insertion sort on the
    distance (pandas' default sort is not stable; that affects only the
    order of rows of equal distance, which no claim observes). *)
Fixpoint insert_row (r : Row) (l : list Row) : list Row :=
  match l with
  | [] => [r]
  | x :: t => if Qle_bool (lapdist r) (lapdist x) then r :: x :: t
              else x :: insert_row r t
  end.

Definition sort_values (l : list Row) : list Row := fold_right insert_row [] l.

(** Strict float comparison [a < b]. *)
Definition Qlt_bool (a b : Q) : bool := negb (Qle_bool b a).

Definition qmax (a b : Q) : Q := if Qle_bool a b then b else a.

(** [df['Laptrigger_lapdist_dls'].max()]: NaN on an empty column. *)
Definition series_max (l : list Row) : ext :=
  match l with
  | [] => ENaN
  | r :: t => EFin (fold_left qmax (map lapdist t) (lapdist r))
  end.

(** [max_dist / num_segments] for a float64 divided by a Python int. *)
Definition ext_div_Z (m : ext) (n : Z) : ext :=
  match m with
  | EFin q =>
      if Z.eqb n 0 then
        (if Qlt_bool 0 q then EPInf else if Qlt_bool q 0 then ENInf else ENaN)
      else EFin (q / inject_Z n)
  | EPInf => if Z.ltb n 0 then ENInf else EPInf
  | ENInf => if Z.ltb n 0 then EPInf else ENInf
  | ENaN => ENaN
  end.

(** [d // len] for floats: floor of the quotient; [x // 0] is NaN for
    [x = 0] and an infinity otherwise (its sign, which also depends on the
    sign of the zero, is irrelevant here: any infinity is rejected by the
    integer cast); [x // inf] is [0] or [-1]. *)
Definition floordiv (d : Q) (len : ext) : quot :=
  match len with
  | EFin l =>
      if Qeq_bool l 0 then
        (if Qlt_bool 0 d then QPInf else if Qlt_bool d 0 then QNInf else QNaN)
      else QFin (Qfloor (d / l))
  | EPInf => if Qle_bool 0 d then QFin 0 else QFin (-1)
  | ENInf => if Qlt_bool 0 d then QFin (-1) else QFin 0
  | ENaN => QNaN
  end.

(** [.astype(int)] on a float column. *)
Fixpoint astype_int (l : list quot) : option (list Z) :=
  match l with
  | [] => Some []
  | QFin z :: t => option_map (cons z) (astype_int t)
  | _ :: _ => None
  end.

(** [.clip(upper=num_segments - 1)] *)
Definition clip_upper (ids : list Z) (up : Z) : list Z :=
  map (fun z => Z.min z up) ids.

(** [df['segment_id'] = ...]: attach the column row by row. *)
Definition assign_col (df : list Row) (ids : list Z) : list SegRow :=
  map (fun p => mkSegRow (fst p) (snd p)) (combine df ids).

Definition segment_lap (rows : list Row) (num_segments : Z) : result (list SegRow) :=
  let df := sort_values rows in
  let max_dist := series_max df in
  let segment_length := ext_div_Z max_dist num_segments in
  match astype_int (map (fun r => floordiv (lapdist r) segment_length) df) with
  | None => Err IntCastingNaNError
  | Some ids => Ok (assign_col df (clip_upper ids (num_segments - 1)%Z))
  end.

(** Number of rows of a segmented table carrying a given segment id. *)
Definition count_seg (out : list SegRow) (k : Z) : nat :=
  length (filter (fun s => Z.eqb (segment_id s) k) out).

(** The synthetic lap of the scenario: [np.linspace(0, 1200, 120)]. *)
Definition synthetic_lap : list Row :=
  map (fun i => mkRow i (inject_Z (Z.of_nat i) * (1200 # 119))) (seq 0 120).

(** The lap's maximum distance is positive (some row lies beyond the start). *)
Definition max_pos (rows : list Row) : Prop :=
  exists m, series_max rows = EFin m /\ 0 < m.

(** Every id in [0, 59] is carried by exactly [k] rows. *)
Definition counts_are (k : nat) (out : list SegRow) : bool :=
  forallb (fun i => Nat.eqb (count_seg out (Z.of_nat i)) k) (seq 0 60).

(** Some row with the given id and distance is tagged [seg]. *)
Definition has_tagged (id : nat) (d : Q) (seg : Z) (out : list SegRow) : bool :=
  existsb (fun s => Nat.eqb (row_id (srow s)) id && Qeq_bool (lapdist (srow s)) d
                    && Z.eqb (segment_id s) seg) out.

(** The id [segment_lap] gives to distance [d] when the lap's maximum is the
    positive [m] (all quotients are then finite); a proof device. *)
Definition seg_of (m : Q) (n : Z) (d : Q) : Z :=
  Z.min (if Z.eqb n 0 then (if Qle_bool 0 d then 0%Z else (-1)%Z)
         else Qfloor (d / (m / inject_Z n)))
        (n - 1).

End SegmentLap.

(** ** src/src/cli_model.py *)
Module CliModel.

Local Open Scope Q_scope.
Local Open Scope string_scope.
Local Open Scope list_scope.

Definition qmin (a b : Q) : Q := if Qle_bool a b then a else b.
Definition qmax (a b : Q) : Q := if Qle_bool a b then b else a.

(** [series.min()] / [series.max()]; [None] is the NaN of an empty series. *)
Definition series_min (s : list Q) : option Q :=
  match s with [] => None | x :: t => Some (fold_left qmin t x) end.
Definition series_max (s : list Q) : option Q :=
  match s with [] => None | x :: t => Some (fold_left qmax t x) end.

(** [normalize_series]: min-max normalisation.  On an empty series both
    bounds are NaN, the test [max_val - min_val == 0] is false, and the
    division branch maps over no element. *)
Definition normalize_series (s : list Q) : list Q :=
  match series_min s, series_max s with
  | Some min_val, Some max_val =>
      if Qeq_bool (max_val - min_val) 0 then map (fun x => x * 0) s
      else map (fun x => (x - min_val) / (max_val - min_val)) s
  | _, _ => []
  end.

(** A DataFrame: its columns in order, each a name and a column of values. *)
Definition Frame := list (string * list Q).

(** [df[c]]: [None] is the [KeyError] of a missing column. *)
Fixpoint get_col (f : Frame) (c : string) : option (list Q) :=
  match f with
  | [] => None
  | (c', v) :: t => if String.eqb c c' then Some v else get_col t c
  end.

(** [df[c] = v]: replaces column [c] in place, or appends it at the end. *)
Fixpoint set_col (f : Frame) (c : string) (v : list Q) : Frame :=
  match f with
  | [] => [(c, v)]
  | (c', v') :: t => if String.eqb c c' then (c, v) :: t else (c', v') :: set_col t c v
  end.

(** Element-wise [w * s] and [s1 + s2] on aligned Series. *)
Definition vscale (w : Q) (s : list Q) : list Q := map (fun x => w * x) s.
Definition vadd (s1 s2 : list Q) : list Q := map (fun p => fst p + snd p) (combine s1 s2).

Definition opt_list (o : option Q) : list Q := match o with Some x => [x] | None => [] end.

(** The values of a centered window of width 3 around position [i]. *)
Definition window_at (s : list Q) (i : nat) : list Q :=
  match i with O => [] | S j => opt_list (nth_error s j) end
  ++ opt_list (nth_error s i) ++ opt_list (nth_error s (S i)).

Definition mean (w : list Q) : Q := fold_right Qplus 0 w / inject_Z (Z.of_nat (length w)).

(** [s.rolling(window=3, center=True, min_periods=1).mean()] *)
Definition rolling_mean3 (s : list Q) : list Q :=
  map (fun i => mean (window_at s i)) (seq 0 (length s)).

(** The object store: DataFrames live at locations (indices). *)
Definition loc := nat.
Definition heap := list Frame.

Fixpoint upd (h : heap) (l : loc) (f : Frame) : heap :=
  match h, l with
  | [], _ => []
  | _ :: t, O => f :: t
  | g :: t, S l' => g :: upd t l' f
  end.

(** [df[c] = e(df)] on the DataFrame stored at [d]. *)
Definition setitem (h : heap) (d : loc) (c : string) (e : Frame -> option (list Q))
  : option heap :=
  match nth_error h d with
  | None => None
  | Some f => match e f with
              | None => None
              | Some v => Some (upd h d (set_col f c v))
              end
  end.

Definition w_steering : Q := 0.4.
Definition w_throttle : Q := 0.3.
Definition w_brake : Q := 0.2.
Definition w_lat : Q := 0.1.

Definition cli_formula (df : Frame) : option (list Q) :=
  match get_col df "norm_steering", get_col df "norm_throttle",
        get_col df "norm_brake", get_col df "norm_lat" with
  | Some s, Some t, Some b, Some l =>
      Some (vadd (vadd (vadd (vscale w_steering s) (vscale w_throttle t))
                       (vscale w_brake b)) (vscale w_lat l))
  | _, _, _, _ => None
  end.

Definition normalized (src : string) (df : Frame) : option (list Q) :=
  option_map normalize_series (get_col df src).

Local Notation "x <- m ;; k" := (match m with Some x => k | None => None end)
  (at level 60, m at next level, right associativity).

(** [compute_cli(metrics_df)] with [metrics_df] stored at [l]: the copy is a
    fresh object at the end of the store, all assignments go to it, and it
    is returned. *)
Definition compute_cli (h : heap) (l : loc) : option (heap * loc) :=
  f <- nth_error h l ;;
  let d := length h in
  let h0 := h ++ [f] in
  h1 <- setitem h0 d "norm_steering" (normalized "steering_entropy") ;;
  h2 <- setitem h1 d "norm_throttle" (normalized "throttle_jerk") ;;
  h3 <- setitem h2 d "norm_brake" (normalized "brake_panic") ;;
  h4 <- setitem h3 d "norm_lat" (normalized "lat_instability") ;;
  h5 <- setitem h4 d "CLI" cli_formula ;;
  h6 <- setitem h5 d "CLI_smooth" (fun df => option_map rolling_mean3 (get_col df "CLI")) ;;
  Some (h6, d).

(** The CLI column that [compute_cli] computes from the four metric columns. *)
Definition cli_of (a b c d : list Q) : list Q :=
  vadd (vadd (vadd (vscale w_steering (normalize_series a)) (vscale w_throttle (normalize_series b)))
             (vscale w_brake (normalize_series c))) (vscale w_lat (normalize_series d)).

(** The columns [compute_cli] adds, in order. *)
Definition added_cols : list string :=
  ["norm_steering"; "norm_throttle"; "norm_brake"; "norm_lat"; "CLI"; "CLI_smooth"].

(** The metrics table columns built by [compute_segment_metrics]. *)
Definition metrics_cols : list string :=
  ["segment_id"; "steering_entropy"; "throttle_jerk"; "brake_panic";
   "lat_instability"; "long_jerk"; "avg_dist"].

(** Proof device: the store [h'] keeps every object of [h], and its object at
    [d] is [f] extended by the columns [pre]. *)
Definition cli_inv (h : heap) (f : Frame) (pre : list string) (h' : heap) : Prop :=
  length h' = S (length h)
  /\ (forall k, (k < length h)%nat -> nth_error h' k = nth_error h k)
  /\ exists f', nth_error h' (length h) = Some f'
       /\ map fst f' = map fst f ++ pre
       /\ (forall c, In c (map fst f) -> get_col f' c = get_col f c).

(** A two-segment metrics table as returned by [compute_segment_metrics]. *)
Definition sample_metrics : Frame :=
  [("segment_id", [0; 1]); ("steering_entropy", [1.5; 2]); ("throttle_jerk", [0.01; 0.03]);
   ("brake_panic", [0; 0.2]); ("lat_instability", [0.5; 0.5]); ("long_jerk", [0.1; 0.4]);
   ("avg_dist", [10; 30])].

End CliModel.

(** ** src/src/insights.py: Primary Cause attribution *)
Module Insights.

Local Open Scope Q_scope.
Local Open Scope string_scope.
Local Open Scope list_scope.

(** The metric names of [metrics], in the order of that list. *)
Inductive metric := steering_entropy | throttle_jerk | brake_panic | lat_instability | long_jerk.

Definition metrics : list metric :=
  [steering_entropy; throttle_jerk; brake_panic; lat_instability; long_jerk].

Definition metric_name (m : metric) : string :=
  match m with
  | steering_entropy => "steering_entropy"
  | throttle_jerk => "throttle_jerk"
  | brake_panic => "brake_panic"
  | lat_instability => "lat_instability"
  | long_jerk => "long_jerk"
  end.

Definition metric_index (m : metric) : nat :=
  match m with
  | steering_entropy => 0 | throttle_jerk => 1 | brake_panic => 2
  | lat_instability => 3 | long_jerk => 4
  end.

(** One row of [df_segments]: the five raw metrics of a segment. *)
Record SegMetrics := mkSeg {
  s_steering_entropy : Q; s_throttle_jerk : Q; s_brake_panic : Q;
  s_lat_instability : Q; s_long_jerk : Q }.

Definition get (r : SegMetrics) (m : metric) : Q :=
  match m with
  | steering_entropy => s_steering_entropy r
  | throttle_jerk => s_throttle_jerk r
  | brake_panic => s_brake_panic r
  | lat_instability => s_lat_instability r
  | long_jerk => s_long_jerk r
  end.

Definition qmin (a b : Q) : Q := if Qle_bool a b then a else b.
Definition qmax (a b : Q) : Q := if Qle_bool a b then b else a.

Definition Qlt_bool (a b : Q) : bool := negb (Qle_bool b a).

(** [df_norm[f'{m}_norm']]: min-max normalisation over the segments, or the
    constant [0] when [max_val - min_val > 0] fails. *)
Definition norm_col (segs : list SegMetrics) (m : metric) : list Q :=
  let col := map (fun r => get r m) segs in
  match col with
  | [] => []
  | x :: t =>
      let min_val := fold_left qmin t x in
      let max_val := fold_left qmax t x in
      if Qlt_bool 0 (max_val - min_val)
      then map (fun v => (v - min_val) / (max_val - min_val)) col
      else map (fun _ => 0) col
  end.

(** The [_norm] columns of row [i] of [df_norm]. *)
Definition norm_row (segs : list SegMetrics) (i : nat) (m : metric) : Q :=
  nth i (norm_col segs m) 0.

(** The [weights] dict: every metric is a key. *)
Definition weights (m : metric) : option Q :=
  match m with
  | steering_entropy => Some 0.4
  | throttle_jerk => Some 0.3
  | brake_panic => Some 0.2
  | lat_instability => Some 0.1
  | long_jerk => Some 0.0
  end.

(** [weights.get(m, 0.1)] *)
Definition weights_get (m : metric) (default : Q) : Q :=
  match weights m with Some w => w | None => default end.

(** [get_primary_cause(row)]: the loop over [metrics] keeping a strictly
    larger weighted value. *)
Definition cause_step (row : metric -> Q) (acc : Q * string) (m : metric) : Q * string :=
  let w := weights_get m 0.1 in
  let weighted_val := row m * w in
  if Qlt_bool (fst acc) weighted_val then (weighted_val, metric_name m) else acc.

Definition get_primary_cause (row : metric -> Q) : string :=
  snd (fold_left (cause_step row) metrics (-1, "Unknown")).

(** [df_segments['Primary Cause'] = df_norm.apply(get_primary_cause, axis=1)] *)
Definition primary_causes (segs : list SegMetrics) : list string :=
  map (fun i => get_primary_cause (norm_row segs i)) (seq 0 (length segs)).

(** The weight each metric is multiplied by in the attribution (the dict's
    values; long_jerk's is 0.0). *)
Definition cause_weight (m : metric) : Q :=
  match m with
  | steering_entropy => 0.4 | throttle_jerk => 0.3 | brake_panic => 0.2
  | lat_instability => 0.1 | long_jerk => 0.0
  end.

(** The weights as the specification states them: long_jerk at 0.1. *)
Definition claimed_weight (m : metric) : Q :=
  match m with
  | steering_entropy => 0.4 | throttle_jerk => 0.3 | brake_panic => 0.2
  | lat_instability => 0.1 | long_jerk => 0.1
  end.

(** Two segments differing only in long_jerk. *)
Definition long_jerk_segs : list SegMetrics :=
  [mkSeg 0 0 0 0 0; mkSeg 0 0 0 0 1].

End Insights.

(** ** src/src/processor.py: [process_lap_data] *)
Module Processor.

Local Open Scope R_scope.
Local Open Scope string_scope.
Local Open Scope list_scope.

(** *** Loading and filtering (lines 20-45) *)

(** A long-format record of the telemetry CSV (the columns the code reads). *)
Record RawRow := mkRaw {
  raw_vehicle_id : string; raw_lap : Z; telemetry_name : string;
  telemetry_value : R; raw_timestamp : R }.

(** A CSV read in chunks; [has_columns] tells whether the chunks carry the
    [vehicle_id] and [lap] columns. *)
Record Source := mkSource { has_columns : bool; src_chunks : list (list RawRow) }.

Inductive load_error := ValueError (msg : string).

Inductive load_result := Loaded (rows : list RawRow) | LoadFailed (e : load_error).

Definition matches (vehicle_id : string) (lap : Z) (r : RawRow) : bool :=
  String.eqb (raw_vehicle_id r) vehicle_id && Z.eqb (raw_lap r) lap.

Definition digit (n : Z) : ascii := ascii_of_nat (48 + Z.to_nat n).

Fixpoint str_pos_aux (fuel : nat) (z : Z) (acc : string) : string :=
  match fuel with
  | O => acc
  | S f => let acc' := String (digit (z mod 10)) acc in
           if (z <? 10)%Z then acc' else str_pos_aux f (z / 10)%Z acc'
  end.

(** Python's [str] of an int. *)
Definition str_Z (z : Z) : string :=
  match z with
  | Z0 => "0"
  | Zpos p => str_pos_aux (Pos.size_nat p) z ""
  | Zneg p => "-" ++ str_pos_aux (Pos.size_nat p) (Zpos p) ""
  end%string.

(** The chunk loop and the [if not chunks: raise ValueError(...)] guard. *)
Definition load_filtered (src : Source) (vehicle_id : string) (lap : Z) : load_result :=
  let chunks :=
    if has_columns src
    then filter (fun c => match c with [] => false | _ :: _ => true end)
                (map (filter (matches vehicle_id lap)) (src_chunks src))
    else [] in
  match chunks with
  | [] => LoadFailed (ValueError ("No data found for " ++ vehicle_id ++ " Lap " ++ str_Z lap)%string)
  | _ => Loaded (concat chunks)
  end.

(** The rows the filter matches, over the whole source. *)
Definition matching_rows (src : Source) (vehicle_id : string) (lap : Z) : list RawRow :=
  if has_columns src then filter (matches vehicle_id lap) (concat (src_chunks src)) else [].

Definition contains (msg part : string) : Prop :=
  exists a b, msg = (a ++ part ++ b)%string.

(** *** From the wide table on (lines 86-143)

    The pivot, the forward/backward fill and the renaming produce one row per
    timestamp with the channels below; the pivot is not modelled (the fills of
    one column and the required-column fill are, in [ProcessorPrep]). *)
Record Wide := mkWide {
  timestamp : R; Steering_Angle : R; throttle : R; brake_pressure : R;
  accx : R; accy : R; speed : R }.

(** [col.max()]; [None] is the NaN of an empty column. *)
Definition col_max (l : list R) : option R :=
  match l with [] => None | x :: t => Some (fold_left Rmax t x) end.

(** [col.max() > c]; a NaN maximum compares false. *)
Definition max_gt (l : list R) (c : R) : bool :=
  match col_max l with
  | Some m => if Rlt_dec c m then true else false
  | None => false
  end.

Definition set_steering (v : R) (r : Wide) : Wide :=
  mkWide (timestamp r) v (throttle r) (brake_pressure r) (accx r) (accy r) (speed r).
Definition set_throttle (v : R) (r : Wide) : Wide :=
  mkWide (timestamp r) (Steering_Angle r) v (brake_pressure r) (accx r) (accy r) (speed r).
Definition set_brake (v : R) (r : Wide) : Wide :=
  mkWide (timestamp r) (Steering_Angle r) (throttle r) v (accx r) (accy r) (speed r).

(** Step 4, "Normalize Signals" (the float literals [450.0], [1.0], [100.0]
    are the integers they denote). *)
Definition normalize_steering (df : list Wide) : list Wide :=
  map (fun r => set_steering (Steering_Angle r / 450) r) df.

Definition normalize_throttle (df : list Wide) : list Wide :=
  if max_gt (map throttle df) 1
  then map (fun r => set_throttle (throttle r / 100) r) df else df.

Definition normalize_brake (df : list Wide) : list Wide :=
  if max_gt (map brake_pressure df) 0 then
    match col_max (map brake_pressure df) with
    | Some m => map (fun r => set_brake (brake_pressure r / m) r) df
    | None => df
    end
  else df.

Definition normalize_signals (df : list Wide) : list Wide :=
  normalize_brake (normalize_throttle (normalize_steering df)).

Definition L : R := 2.57.
Definition steering_ratio : R := 13.5.

Fixpoint diffs (prev : R) (l : list R) : list R :=
  match l with [] => [] | x :: t => (x - prev) :: diffs x t end.

(** [timestamp.diff().dt.total_seconds().fillna(0)] *)
Definition time_deltas (ts : list R) : list R :=
  match ts with [] => [] | t0 :: rest => 0 :: diffs t0 rest end.

(** [np.radians] *)
Definition radians (x : R) : R := x * PI / 180.

Fixpoint cumsum_from (acc : R) (l : list R) : list R :=
  match l with [] => [] | x :: t => (acc + x) :: cumsum_from (acc + x) t end.

(** [Series.cumsum()] *)
Definition cumsum (l : list R) : list R :=
  match l with [] => [] | x :: t => x :: cumsum_from x t end.

(** Element-wise binary operation on aligned Series. *)
Definition zipw (f : R -> R -> R) (a b : list R) : list R :=
  map (fun p => f (fst p) (snd p)) (combine a b).

Definition speed_ms_col (df : list Wide) : list R :=
  if max_gt (map speed df) 100 then map (fun r => speed r / 3.6) df else map speed df.

Definition wheel_angle_col (df : list Wide) : list R :=
  let steer_deg := map (fun r => Steering_Angle r * 450) df in
  map (fun d => radians (d / steering_ratio)) steer_deg.

Definition yaw_rate_col (df : list Wide) : list R :=
  zipw (fun v w => (v / L) * tan w) (speed_ms_col df) (wheel_angle_col df).

Definition dt_col (df : list Wide) : list R := time_deltas (map timestamp df).

Definition heading_col (df : list Wide) : list R :=
  cumsum (zipw Rmult (yaw_rate_col df) (dt_col df)).

Definition X_col (df : list Wide) : list R :=
  let vx := zipw (fun v h => v * cos h) (speed_ms_col df) (heading_col df) in
  cumsum (zipw Rmult vx (dt_col df)).

Definition Y_col (df : list Wide) : list R :=
  let vy := zipw (fun v h => v * sin h) (speed_ms_col df) (heading_col df) in
  cumsum (zipw Rmult vy (dt_col df)).

Definition lapdist_col (df : list Wide) : list R :=
  cumsum (zipw Rmult (speed_ms_col df) (dt_col df)).

(** A row of the returned table. *)
Record Out := mkOut {
  o_row : Wide; o_dt : R; o_X : R; o_Y : R;
  o_longitude : R; o_latitude : R; o_lapdist : R }.

Fixpoint assemble (df : list Wide) (dt xs ys ds : list R) : list Out :=
  match df, dt, xs, ys, ds with
  | r :: df', t :: dt', x :: xs', y :: ys', d :: ds' =>
      mkOut r t x y x y d :: assemble df' dt' xs' ys' ds'
  | _, _, _, _, _ => []
  end.

(** Steps 4 to 6 of [process_lap_data], from the wide table. *)
Definition process_wide (wide : list Wide) : list Out :=
  let df := normalize_signals wide in
  assemble df (dt_col df) (X_col df) (Y_col df) (lapdist_col df).

(** *** The reconstructor as the specification describes it: a forward-Euler
    scan over (dt, yaw rate, speed) from a zero heading, position and distance. *)
Record DRState := mkDR { dr_heading : R; dr_x : R; dr_y : R; dr_dist : R }.

Definition dr_step (st : DRState) (dt yaw v : R) : DRState :=
  let h := dr_heading st + yaw * dt in
  mkDR h (dr_x st + v * cos h * dt) (dr_y st + v * sin h * dt) (dr_dist st + v * dt).

Fixpoint dr_scan (st : DRState) (inp : list (R * R * R)) : list DRState :=
  match inp with
  | [] => []
  | (dt, yaw, v) :: t => let st' := dr_step st dt yaw v in st' :: dr_scan st' t
  end.

(** The observed maximum of a column exceeds [c]. *)
Definition max_exceeds (l : list R) (c : R) : Prop :=
  exists m, col_max l = Some m /\ c < m.

(** The spec's yaw rate from a normalised steering value and a speed in m/s. *)
Definition spec_yaw (steer v : R) : R := (v / 2.57) * tan (radians (steer * 450 / 13.5)).

Definition inp_dt (p : R * R * R) : R := fst (fst p).
Definition inp_yaw (p : R * R * R) : R := snd (fst p).
Definition inp_v (p : R * R * R) : R := snd p.

(** The scan's inputs: per sample [(dt, yaw rate, speed in m/s)], with the
    loader's normalised steering and m/s speed. *)
Definition spec_inputs (df : list Wide) : list (R * R * R) :=
  combine (combine (dt_col df) (zipw spec_yaw (map Steering_Angle df) (speed_ms_col df)))
          (speed_ms_col df).

End Processor.

(** ** Facts about [segment_lap] *)
(** ** [compute_metrics.py]: the per-segment metrics of one segment's rows *)
Module Metrics.

Local Open Scope Q_scope.
Local Open Scope list_scope.

Definition Qlt_bool (a b : Q) : bool := negb (Qle_bool b a).

Fixpoint qdiffs (prev : Q) (l : list Q) : list Q :=
  match l with [] => [] | x :: t => (x - prev) :: qdiffs x t end.

(** [s.diff().fillna(0)] *)
Definition diff_fill0 (s : list Q) : list Q :=
  match s with [] => [] | x :: t => 0 :: qdiffs x t end.

(** [Series.mean()]; [None] is the NaN of an empty series. *)
Definition smean (s : list Q) : option Q :=
  match s with
  | [] => None
  | _ :: _ => Some (fold_right Qplus 0 s / inject_Z (Z.of_nat (length s)))
  end.

(** [s.diff().fillna(0).abs().mean()]: [throttle_jerk] (on [throttle]) and
    [long_jerk] (on [accx]). *)
Definition abs_diff_mean (s : list Q) : option Q := smean (map Qabs (diff_fill0 s)).

(** [brake_diff[brake_diff > 0].mean() if not brake_diff[brake_diff > 0].empty else 0] *)
Definition brake_panic (brake : list Q) : option Q :=
  let brake_diff := diff_fill0 brake in
  let pos := filter (fun x => Qlt_bool 0 x) brake_diff in
  match pos with [] => Some 0 | _ :: _ => smean pos end.

End Metrics.

(** ** [compute_insights]: the statistics over the per-segment table *)
Module InsightsStats.

Local Open Scope Q_scope.
Local Open Scope string_scope.
Local Open Scope list_scope.

(** The columns of [df_segments] read by the statistics. *)
Record SegRow := mkSR { sr_cli_smooth : Q; sr_cause : string }.

Definition Qlt_bool (a b : Q) : bool := negb (Qle_bool b a).

(** [np.sort] of the values, ascending. *)
Fixpoint qinsert (x : Q) (l : list Q) : list Q :=
  match l with
  | [] => [x]
  | y :: t => if Qle_bool x y then x :: y :: t else y :: qinsert x t
  end.
Definition qsort (l : list Q) : list Q := fold_right qinsert [] l.

(** [Series.quantile(q)] with the default linear interpolation between the
    two order statistics around the virtual index [(n - 1) * q]; [None] is the
    NaN of an empty series. *)
Definition quantile (q : Q) (s : list Q) : option Q :=
  match s with
  | [] => None
  | _ :: _ =>
      let v := qsort s in
      let n := length s in
      let h := inject_Z (Z.of_nat (n - 1)) * q in
      let lo := Qfloor h in
      let hi := Z.min (lo + 1) (Z.of_nat (n - 1)) in
      let a := nth (Z.to_nat lo) v 0 in
      let b := nth (Z.to_nat hi) v 0 in
      Some (a + (h - inject_Z lo) * (b - a))
  end.

(** [df_segments[df_segments['CLI_smooth'] >= high_load_threshold]]; a NaN
    threshold compares false for every row. *)
Definition high_load (segs : list SegRow) : list SegRow :=
  match quantile (8 # 10) (map sr_cli_smooth segs) with
  | Some thr => filter (fun r => Qle_bool thr (sr_cli_smooth r)) segs
  | None => []
  end.

(** Python's [sorted] on strings (code-point order). *)
Fixpoint sinsert (x : string) (l : list string) : list string :=
  match l with
  | [] => [x]
  | y :: t => if String.leb x y then x :: y :: t else y :: sinsert x t
  end.
Definition ssort (l : list string) : list string := fold_right sinsert [] l.

(** [Series.mode()]: the values of maximal count, in sorted order. *)
Definition mode (l : list string) : list string :=
  let u := nodup string_dec l in
  let m := list_max (map (count_occ string_dec l) u) in
  ssort (filter (fun x => Nat.eqb (count_occ string_dec l x) m) u).

(** [common_cause]: [mode()[0]] of the causes of the high-load segments, or
    ["N/A"]; [None] is the [IndexError] of an empty mode. *)
Definition common_cause (segs : list SegRow) : option string :=
  match high_load segs with
  | [] => Some "N/A"
  | hs => match mode (map sr_cause hs) with c :: _ => Some c | [] => None end
  end.

Fixpoint idxmax_aux (i best : nat) (bv : Q) (l : list Q) : nat :=
  match l with
  | [] => best
  | x :: t => if Qlt_bool bv x then idxmax_aux (S i) i x t else idxmax_aux (S i) best bv t
  end.

Fixpoint idxmin_aux (i best : nat) (bv : Q) (l : list Q) : nat :=
  match l with
  | [] => best
  | x :: t => if Qlt_bool x bv then idxmin_aux (S i) i x t else idxmin_aux (S i) best bv t
  end.

(** [Series.idxmax()] / [idxmin()] on the default index: the first position of
    the maximum (minimum); [None] is the [ValueError] of an empty series. *)
Definition idxmax (l : list Q) : option nat :=
  match l with [] => None | x :: t => Some (idxmax_aux 1 0 x t) end.
Definition idxmin (l : list Q) : option nat :=
  match l with [] => None | x :: t => Some (idxmin_aux 1 0 x t) end.

(** [df_segments.sort_values('CLI_smooth', ascending=False)] and
    [ascending=True]: insertion sorts on [CLI_smooth] (pandas' default sort is
    not stable; the order among equal values is not observed below). *)
Fixpoint rinsert_desc (x : SegRow) (l : list SegRow) : list SegRow :=
  match l with
  | [] => [x]
  | y :: t => if Qle_bool (sr_cli_smooth y) (sr_cli_smooth x) then x :: y :: t
              else y :: rinsert_desc x t
  end.
Definition sort_desc (l : list SegRow) : list SegRow := fold_right rinsert_desc [] l.

Fixpoint rinsert_asc (x : SegRow) (l : list SegRow) : list SegRow :=
  match l with
  | [] => [x]
  | y :: t => if Qle_bool (sr_cli_smooth x) (sr_cli_smooth y) then x :: y :: t
              else y :: rinsert_asc x t
  end.
Definition sort_asc (l : list SegRow) : list SegRow := fold_right rinsert_asc [] l.

(** [.head(5)] of the sorted tables. *)
Definition top_5_high (segs : list SegRow) : list SegRow := firstn 5 (sort_desc segs).
Definition top_5_low (segs : list SegRow) : list SegRow := firstn 5 (sort_asc segs).

End InsightsStats.

(** ** [load_data.get_available_laps] over the chunked source of the loader *)
Module LoadData.

Import Processor.
Local Open Scope list_scope.

Fixpoint zinsert (x : Z) (l : list Z) : list Z :=
  match l with
  | [] => [x]
  | y :: t => if (x <=? y)%Z then x :: y :: t else y :: zinsert x t
  end.

(** [sorted(list(s))] of a set of ints. *)
Definition zsort (l : list Z) : list Z := fold_right zinsert [] l.

(** [get_available_laps(telemetry_file, vehicle_id)]: [file_ok] is the
    [os.path.exists] test; a source without the [vehicle_id] and [lap] columns
    makes [read_csv(usecols=...)] raise, which is caught and gives [[]]. *)
Definition get_available_laps (file_ok : bool) (src : Source) (vehicle_id : string)
  : list Z :=
  if negb file_ok then []
  else if has_columns src then
    zsort (nodup Z.eq_dec
      (map raw_lap (filter (fun r => String.eqb (raw_vehicle_id r) vehicle_id)
                           (concat (src_chunks src)))))
  else [].

End LoadData.

(** ** [process_lap_data] between the pivot and the normalisation: the
    forward/backward fill of one column and the required-column fill *)
Module ProcessorPrep.

Local Open Scope R_scope.
Local Open Scope string_scope.
Local Open Scope list_scope.

(** A column with missing values: [None] is NaN. *)
Fixpoint ffill_from {A : Type} (last : option A) (l : list (option A)) : list (option A) :=
  match l with
  | [] => []
  | Some x :: t => Some x :: ffill_from (Some x) t
  | None :: t => last :: ffill_from last t
  end.

(** [Series.ffill()] *)
Definition ffill {A : Type} (l : list (option A)) : list (option A) := ffill_from None l.

(** [Series.bfill()]: a forward fill from the end. *)
Definition bfill {A : Type} (l : list (option A)) : list (option A) := rev (ffill (rev l)).

(** A DataFrame of float columns, in column order. *)
Definition PFrame := list (string * list R).

Fixpoint pget (f : PFrame) (c : string) : option (list R) :=
  match f with
  | [] => None
  | (c', v) :: t => if String.eqb c c' then Some v else pget t c
  end.

Definition has_col (f : PFrame) (c : string) : bool :=
  match pget f c with Some _ => true | None => false end.

Definition required_cols : list string :=
  ["Steering_Angle"; "throttle"; "brake_pressure"; "accx"; "accy"; "speed"].

(** [for col in required_cols: if col not in df.columns: df[col] = 0.0] on a
    table of [n] rows: a new column goes at the end. *)
Definition fill_required (n : nat) (f : PFrame) : PFrame :=
  fold_left (fun f c => if has_col f c then f else f ++ [(c, repeat 0 n)]) required_cols f.

End ProcessorPrep.

Module SegmentLapFacts.
Import SegmentLap.
Local Open Scope Q_scope.

Example segment_small :
  segment_lap [mkRow 0 0; mkRow 1 10; mkRow 2 5] 2
  = Ok [mkSegRow (mkRow 0 0) 0; mkSegRow (mkRow 2 5) 1; mkSegRow (mkRow 1 10) 1].
Proof. vm_compute. reflexivity. Qed.

Lemma Qlt_bool_iff (a b : Q) : Qlt_bool a b = true <-> a < b.
Proof.
  unfold Qlt_bool. rewrite negb_true_iff. split; intro H.
  - apply Qnot_le_lt. intro H'. apply Qle_bool_iff in H'. congruence.
  - destruct (Qle_bool b a) eqn:E; [|reflexivity].
    apply Qle_bool_iff in E. exfalso. apply (Qlt_not_le a b); assumption.
Qed.

Lemma insert_row_perm (r : Row) (l : list Row) :
  Permutation (insert_row r l) (r :: l).
Proof.
  induction l as [|x t IH]; simpl; [auto|].
  destruct (Qle_bool (lapdist r) (lapdist x)); [auto|].
  eapply perm_trans; [apply perm_skip, IH|apply perm_swap].
Qed.

Lemma sort_values_perm (l : list Row) : Permutation (sort_values l) l.
Proof.
  induction l as [|x t IH]; simpl; [auto|].
  eapply perm_trans; [apply insert_row_perm|]. auto.
Qed.

Definition dist_le (a b : Row) : Prop := lapdist a <= lapdist b.

Lemma insert_row_sorted (r : Row) (l : list Row) :
  Sorted dist_le l -> Sorted dist_le (insert_row r l).
Proof.
  induction 1 as [|x t Ht IH Hd]; simpl; [auto|].
  destruct (Qle_bool (lapdist r) (lapdist x)) eqn:E.
  - apply Qle_bool_iff in E. constructor; [constructor; assumption|].
    constructor. exact E.
  - assert (Hxr : dist_le x r).
    { unfold dist_le. apply Qlt_le_weak, Qnot_le_lt.
      intro H. apply Qle_bool_iff in H. congruence. }
    constructor; [exact IH|].
    destruct t as [|y t']; simpl.
    + constructor. exact Hxr.
    + destruct (Qle_bool (lapdist r) (lapdist y)); constructor;
        [exact Hxr|inversion Hd; assumption].
Qed.

Lemma sort_values_sorted (l : list Row) : Sorted dist_le (sort_values l).
Proof.
  induction l as [|x t IH]; simpl; [constructor|].
  apply insert_row_sorted, IH.
Qed.

Lemma fold_qmax_spec (t : list Q) (a : Q) :
  (fold_left qmax t a = a \/ In (fold_left qmax t a) t) /\
  a <= fold_left qmax t a /\ (forall x, In x t -> x <= fold_left qmax t a).
Proof.
  revert a. induction t as [|x t IH]; intro a; simpl.
  - split; [left; reflexivity|]. split; [apply Qle_refl|]. intros _ [].
  - destruct (IH (qmax a x)) as [Hin [Hle Hall]].
    assert (Ha : a <= qmax a x /\ x <= qmax a x /\ (qmax a x = a \/ qmax a x = x)).
    { unfold qmax. destruct (Qle_bool a x) eqn:E.
      - apply Qle_bool_iff in E. split; [exact E|]. split; [apply Qle_refl|right; reflexivity].
      - split; [apply Qle_refl|]. split; [|left; reflexivity].
        apply Qlt_le_weak, Qnot_le_lt. intro H. apply Qle_bool_iff in H. congruence. }
    destruct Ha as [Ha1 [Ha2 Ha3]].
    split; [|split].
    + destruct Hin as [Hin|Hin].
      * rewrite Hin. destruct Ha3 as [-> | ->]; [left|right; left]; reflexivity.
      * right; right; exact Hin.
    + eapply Qle_trans; eassumption.
    + intros y [<-|Hy]; [eapply Qle_trans; eassumption|auto].
Qed.

(** The column maximum is attained and bounds every distance. *)
Lemma series_max_spec (l : list Row) (m : Q) :
  series_max l = EFin m ->
  (exists r, In r l /\ lapdist r = m) /\ (forall r, In r l -> lapdist r <= m).
Proof.
  destruct l as [|r0 t]; simpl; [discriminate|]. intro H. injection H as <-.
  destruct (fold_qmax_spec (map lapdist t) (lapdist r0)) as [Hin [Hle Hall]].
  split.
  - destruct Hin as [Hin|Hin].
    + exists r0. split; [left; reflexivity|symmetry; exact Hin].
    + apply in_map_iff in Hin. destruct Hin as [r [Hr Hr']].
      exists r. split; [right; exact Hr'|exact Hr].
  - intros r [<-|Hr]; [exact Hle|]. apply Hall, in_map, Hr.
Qed.

Lemma series_max_nonempty (l : list Row) : l <> [] -> exists m, series_max l = EFin m.
Proof. destruct l; simpl; [congruence|eauto]. Qed.

(** Two permuted tables have the same maximum, up to [Qeq]. *)
Lemma series_max_perm (l l' : list Row) (m m' : Q) :
  Permutation l l' -> series_max l = EFin m -> series_max l' = EFin m' -> m == m'.
Proof.
  intros P H H'.
  destruct (series_max_spec l m H) as [[r [Hr Hrm]] Hb].
  destruct (series_max_spec l' m' H') as [[r' [Hr' Hrm']] Hb'].
  apply Qle_antisym.
  - rewrite <- Hrm. apply Hb'. eapply Permutation_in; eassumption.
  - rewrite <- Hrm'. apply Hb. eapply Permutation_in; [symmetry|]; eassumption.
Qed.

Lemma astype_int_map (df : list Row) (len : ext) (h : Row -> Z) :
  (forall r, In r df -> floordiv (lapdist r) len = QFin (h r)) ->
  astype_int (map (fun r => floordiv (lapdist r) len) df) = Some (map h df).
Proof.
  induction df as [|r t IH]; intro H; simpl; [reflexivity|].
  rewrite (H r (or_introl eq_refl)), IH; [reflexivity|].
  intros r' Hr'. apply H. right. exact Hr'.
Qed.

Lemma assign_col_map (df : list Row) (h : Row -> Z) (up : Z) :
  assign_col df (clip_upper (map h df) up)
  = map (fun r => mkSegRow r (Z.min (h r) up)) df.
Proof.
  unfold assign_col, clip_upper.
  induction df as [|r t IH]; simpl; [reflexivity|]. rewrite IH. reflexivity.
Qed.

Lemma inject_Z_nonzero (n : Z) : n <> 0%Z -> ~ inject_Z n == 0.
Proof.
  intros Hn H. apply Hn. apply (proj1 (inject_Z_injective n 0)). exact H.
Qed.

Lemma div_nonzero (m : Q) (n : Z) : 0 < m -> n <> 0%Z -> ~ m / inject_Z n == 0.
Proof.
  intros Hm Hn H. pose proof (inject_Z_nonzero n Hn) as Hn'.
  assert (E : m == (m / inject_Z n) * inject_Z n) by (field; exact Hn').
  rewrite H in E. rewrite Qmult_0_l in E. rewrite E in Hm. apply (Qlt_irrefl 0 Hm).
Qed.

(** Closed form: with a positive maximum distance [m], [segment_lap] never
    fails and tags each row, in ascending distance order, with [seg_of]. *)
Lemma segment_lap_pos (rows : list Row) (n : Z) (m : Q) :
  series_max rows = EFin m -> 0 < m ->
  segment_lap rows n
  = Ok (map (fun r => mkSegRow r (seg_of m n (lapdist r))) (sort_values rows)).
Proof.
  intros Hmax Hm.
  assert (Hne : sort_values rows <> []).
  { intro E. destruct rows; [discriminate|].
    pose proof (Permutation_length (sort_values_perm (r :: rows))) as L.
    rewrite E in L. discriminate. }
  destruct (series_max_nonempty _ Hne) as [m' Hm'].
  pose proof (series_max_perm _ _ _ _ (sort_values_perm rows) Hm' Hmax) as Emm.
  assert (Hm'pos : 0 < m') by (rewrite Emm; exact Hm).
  unfold segment_lap. cbv zeta. rewrite Hm'.
  rewrite (astype_int_map _ _
    (fun r => if Z.eqb n 0 then (if Qle_bool 0 (lapdist r) then 0%Z else (-1)%Z)
              else Qfloor (lapdist r / (m / inject_Z n)))).
  - rewrite assign_col_map. reflexivity.
  - intros r _. unfold ext_div_Z.
    destruct (Z.eqb n 0) eqn:En.
    + assert (E : Qlt_bool 0 m' = true) by (apply Qlt_bool_iff; exact Hm'pos).
      rewrite E. unfold floordiv. destruct (Qle_bool 0 (lapdist r)); reflexivity.
    + apply Z.eqb_neq in En. unfold floordiv.
      destruct (Qeq_bool (m' / inject_Z n) 0) eqn:Eq0.
      * apply Qeq_bool_iff in Eq0. exfalso. exact (div_nonzero m' n Hm'pos En Eq0).
      * f_equal. apply Qfloor_comp. rewrite Emm. reflexivity.
Qed.

Lemma Sorted_map_mono {A B : Type} (R : A -> A -> Prop) (R' : B -> B -> Prop)
      (P : A -> Prop) (f : A -> B) (l : list A) :
  Sorted R l -> Forall P l ->
  (forall a b, P a -> P b -> R a b -> R' (f a) (f b)) ->
  Sorted R' (map f l).
Proof.
  intros HS HP Hf. induction HS as [|a t Ht IH Hd]; simpl; constructor.
  - apply IH. inversion HP; assumption.
  - destruct t as [|b t']; simpl; constructor.
    inversion Hd; subst. inversion HP as [|? ? Pa Pt]; subst.
    inversion Pt; subst. apply Hf; assumption.
Qed.

Lemma Qdiv_le_mono (a b l : Q) : 0 < l -> a <= b -> a / l <= b / l.
Proof.
  intros Hl Hab. unfold Qdiv. apply Qmult_le_compat_r; [exact Hab|].
  apply Qinv_le_0_compat, Qlt_le_weak, Hl.
Qed.

Lemma seg_len_pos (m : Q) (n : Z) : 0 < m -> (0 < n)%Z -> 0 < m / inject_Z n.
Proof.
  intros Hm Hn. apply Qlt_shift_div_l.
  - change 0 with (inject_Z 0). rewrite <- Zlt_Qlt. exact Hn.
  - rewrite Qmult_0_l. exact Hm.
Qed.

(** For a negative segment count every quotient is at least [n]. *)
Lemma seg_quot_neg (m d : Q) (n : Z) :
  0 < m -> (n < 0)%Z -> d <= m -> (n <= Qfloor (d / (m / inject_Z n)))%Z.
Proof.
  intros Hm Hn Hd.
  assert (Hn' : inject_Z n < 0) by (change 0 with (inject_Z 0); rewrite <- Zlt_Qlt; exact Hn).
  assert (Hnz : ~ inject_Z n == 0) by (apply inject_Z_nonzero; lia).
  assert (Hmz : ~ m == 0) by (intro E; rewrite E in Hm; apply (Qlt_irrefl 0 Hm)).
  assert (E : d / (m / inject_Z n) == (d * inject_Z n) / m) by (field; split; assumption).
  apply Z.le_trans with (Qfloor (inject_Z n)); [rewrite Qfloor_Z; lia|].
  apply Qfloor_resp_le. rewrite E.
  apply Qle_shift_div_l; [exact Hm|].
  assert (H : d * (- inject_Z n) <= m * (- inject_Z n)).
  { apply Qmult_le_compat_r; [exact Hd|lra]. }
  lra.
Qed.

Lemma seg_of_neg (m d : Q) (n : Z) :
  0 < m -> (n < 0)%Z -> d <= m -> seg_of m n d = (n - 1)%Z.
Proof.
  intros Hm Hn Hd. unfold seg_of.
  replace (Z.eqb n 0) with false by (symmetry; apply Z.eqb_neq; lia).
  pose proof (seg_quot_neg m d n Hm Hn Hd). lia.
Qed.

Lemma seg_of_mono (m d1 d2 : Q) (n : Z) :
  0 < m -> d1 <= d2 -> d2 <= m -> (seg_of m n d1 <= seg_of m n d2)%Z.
Proof.
  intros Hm H12 H2m.
  destruct (Z.compare_spec n 0) as [->|Hn|Hn].
  - unfold seg_of. simpl.
    destruct (Qle_bool 0 d1), (Qle_bool 0 d2); lia.
  - rewrite (seg_of_neg m d1 n), (seg_of_neg m d2 n); try lia; try assumption.
    eapply Qle_trans; eassumption.
  - unfold seg_of. replace (Z.eqb n 0) with false by (symmetry; apply Z.eqb_neq; lia).
    pose proof (Qfloor_resp_le _ _ (Qdiv_le_mono d1 d2 _ (seg_len_pos m n Hm Hn) H12)).
    lia.
Qed.

Lemma sort_values_bounded (rows : list Row) (m : Q) :
  series_max rows = EFin m -> Forall (fun r => lapdist r <= m) (sort_values rows).
Proof.
  intro H. apply Forall_forall. intros r Hr.
  apply (proj2 (series_max_spec rows m H)).
  eapply Permutation_in; [apply sort_values_perm|exact Hr].
Qed.

(** [C1] (amended) The segmenter has no guard of its own: on a table whose
    distances are all zero, a non-empty one fails only because every quotient
    [0 // 0] is NaN and the integer cast rejects it, and the empty table is
    returned as an empty table, without any error. *)
Theorem segment_lap_zero_or_empty (rows : list Row) (n : Z)
  (Hz : forall r, In r rows -> lapdist r == 0) :
  segment_lap rows n = match rows with [] => Ok [] | _ :: _ => Err IntCastingNaNError end.
Proof.
  destruct rows as [|r0 t] eqn:Erows; [reflexivity|].
  rewrite <- Erows in Hz |- *.
  assert (Hall : forall r, In r (sort_values rows) -> lapdist r == 0).
  { intros r Hr. apply Hz. eapply Permutation_in; [apply sort_values_perm|exact Hr]. }
  assert (Hne : sort_values rows <> []).
  { intro E. pose proof (Permutation_length (sort_values_perm rows)) as L.
    rewrite E, Erows in L. discriminate. }
  destruct (sort_values rows) as [|r1 df] eqn:Edf; [congruence|].
  destruct (series_max_spec (r1 :: df) _ eq_refl) as [[r [Hr Hrm]] _].
  set (m' := fold_left qmax (map lapdist df) (lapdist r1)) in *.
  assert (Hm0 : m' == 0) by (rewrite <- Hrm; apply Hall, Hr).
  assert (Hd0 : lapdist r1 == 0) by (apply Hall; left; reflexivity).
  assert (Hlt1 : Qlt_bool 0 (lapdist r1) = false).
  { destruct (Qlt_bool 0 (lapdist r1)) eqn:E; [|reflexivity].
    apply Qlt_bool_iff in E. rewrite Hd0 in E. destruct (Qlt_irrefl 0 E). }
  assert (Hlt2 : Qlt_bool (lapdist r1) 0 = false).
  { destruct (Qlt_bool (lapdist r1) 0) eqn:E; [|reflexivity].
    apply Qlt_bool_iff in E. rewrite Hd0 in E. destruct (Qlt_irrefl 0 E). }
  unfold segment_lap. cbv zeta. rewrite Edf. unfold series_max. fold m'.
  unfold ext_div_Z. destruct (Z.eqb n 0).
  - assert (E1 : Qlt_bool 0 m' = false).
    { destruct (Qlt_bool 0 m') eqn:E; [|reflexivity].
      apply Qlt_bool_iff in E. rewrite Hm0 in E. destruct (Qlt_irrefl 0 E). }
    assert (E2 : Qlt_bool m' 0 = false).
    { destruct (Qlt_bool m' 0) eqn:E; [|reflexivity].
      apply Qlt_bool_iff in E. rewrite Hm0 in E. destruct (Qlt_irrefl 0 E). }
    rewrite E1, E2. reflexivity.
  - assert (E0 : Qeq_bool (m' / inject_Z n) 0 = true).
    { apply Qeq_bool_iff. rewrite Hm0. unfold Qdiv. apply Qmult_0_l. }
    cbn [map]. unfold floordiv. rewrite E0, Hlt1, Hlt2. reflexivity.
Qed.

(** [C9] With a positive maximum distance, whatever the segment count, the
    segmenter succeeds and returns its rows in ascending order of distance,
    with a non-decreasing [segment_id] column. *)
Theorem segment_lap_sorted (rows : list Row) (n : Z) (Hpos : max_pos rows) :
  exists out, segment_lap rows n = Ok out
    /\ Sorted (fun a b => lapdist (srow a) <= lapdist (srow b)) out
    /\ Sorted (fun a b => (segment_id a <= segment_id b)%Z) out.
Proof.
  destruct Hpos as [m [Hm Hm0]].
  rewrite (segment_lap_pos rows n m Hm Hm0).
  eexists. split; [reflexivity|]. split.
  - apply (Sorted_map_mono dist_le _ (fun _ => True)).
    + apply sort_values_sorted.
    + apply Forall_forall. auto.
    + intros a b _ _ H. exact H.
  - apply (Sorted_map_mono dist_le _ (fun r => lapdist r <= m)).
    + apply sort_values_sorted.
    + apply sort_values_bounded, Hm.
    + intros a b _ Hb Hab. simpl. apply seg_of_mono; assumption.
Qed.

Lemma seg_quot_nonneg (m d : Q) (n : Z) :
  0 < m -> (0 < n)%Z -> 0 <= d -> (0 <= Qfloor (d / (m / inject_Z n)))%Z.
Proof.
  intros Hm Hn Hd.
  apply Z.le_trans with (Qfloor 0); [reflexivity|]. apply Qfloor_resp_le.
  apply Qle_shift_div_l; [apply seg_len_pos; assumption|]. rewrite Qmult_0_l. exact Hd.
Qed.

Lemma seg_quot_max (m : Q) (n : Z) :
  0 < m -> (0 < n)%Z -> Qfloor (m / (m / inject_Z n)) = n.
Proof.
  intros Hm Hn.
  assert (Hnz : ~ inject_Z n == 0) by (apply inject_Z_nonzero; lia).
  assert (Hmz : ~ m == 0) by (intro E; rewrite E in Hm; apply (Qlt_irrefl 0 Hm)).
  assert (E : m / (m / inject_Z n) == inject_Z n) by (field; split; assumption).
  rewrite E. apply Qfloor_Z.
Qed.

(** [C3] (amended) For a segment count [n >= 1] and a table of non-negative
    distances with positive maximum [m], the segmenter returns all the input
    rows, each tagged [min (floor (d / (m / n))) (n - 1)], which lies in
    [[0, n - 1]]; a row at the maximum distance gets exactly [n - 1].  (Only
    the upper end is clipped by the code.) *)
Theorem segment_lap_ids (rows : list Row) (n : Z) (m : Q)
  (Hmax : series_max rows = EFin m) (Hm : 0 < m) (Hn : (1 <= n)%Z)
  (Hnn : forall r, In r rows -> 0 <= lapdist r) :
  exists out, segment_lap rows n = Ok out
    /\ Permutation (map srow out) rows
    /\ (forall s, In s out ->
          segment_id s = Z.min (Qfloor (lapdist (srow s) / (m / inject_Z n))) (n - 1)
          /\ (0 <= segment_id s <= n - 1)%Z)
    /\ (forall s, In s out -> lapdist (srow s) == m -> segment_id s = (n - 1)%Z).
Proof.
  rewrite (segment_lap_pos rows n m Hmax Hm).
  eexists. split; [reflexivity|].
  assert (Hn0 : Z.eqb n 0 = false) by (apply Z.eqb_neq; lia).
  split; [|split].
  - rewrite map_map. simpl. rewrite map_id. apply sort_values_perm.
  - intros s Hs. apply in_map_iff in Hs. destruct Hs as [r [<- Hr]]. simpl.
    assert (Hd : 0 <= lapdist r).
    { apply Hnn. eapply Permutation_in; [apply sort_values_perm|exact Hr]. }
    unfold seg_of. rewrite Hn0. split; [reflexivity|].
    pose proof (seg_quot_nonneg m (lapdist r) n Hm ltac:(lia) Hd). lia.
  - intros s Hs Hsm. apply in_map_iff in Hs. destruct Hs as [r [<- Hr]].
    simpl in Hsm |- *. unfold seg_of. rewrite Hn0.
    rewrite (Qfloor_comp _ (m / (m / inject_Z n))) by (rewrite Hsm; reflexivity).
    rewrite seg_quot_max by (lia || assumption). lia.
Qed.

(** [C3] counterexample: the code clips only from above, so a table with a
    negative distance (here [-10] and [10], two segments) gets the id [-2],
    and a segment count of [0] yields the id [-1]; neither lies in
    [[0, N - 1]]. *)
Lemma segment_lap_clamp_cex :
  segment_lap [mkRow 0 (-10); mkRow 1 10] 2
    = Ok [mkSegRow (mkRow 0 (-10)) (-2); mkSegRow (mkRow 1 10) 1]
  /\ segment_lap [mkRow 0 10] 0 = Ok [mkSegRow (mkRow 0 10) (-1)].
Proof. split; vm_compute; reflexivity. Qed.

Lemma counts_are_spec (k : nat) (out : list SegRow) :
  counts_are k out = true -> forall i, (0 <= i < 60)%Z -> count_seg out i = k.
Proof.
  unfold counts_are. rewrite forallb_forall. intros H i Hi.
  specialize (H (Z.to_nat i)). rewrite Z2Nat.id in H by lia.
  apply Nat.eqb_eq, H, in_seq. lia.
Qed.

Lemma has_tagged_spec (id : nat) (d : Q) (seg : Z) (out : list SegRow) :
  has_tagged id d seg out = true ->
  exists s, In s out /\ row_id (srow s) = id /\ lapdist (srow s) == d /\ segment_id s = seg.
Proof.
  unfold has_tagged. rewrite existsb_exists. intros [s [Hs H]].
  apply andb_true_iff in H as [H H3]. apply andb_true_iff in H as [H1 H2].
  exists s. split; [exact Hs|]. split; [apply Nat.eqb_eq, H1|].
  split; [apply Qeq_bool_iff, H2|apply Z.eqb_eq, H3].
Qed.

(** [C8] (amended) On the synthetic lap of 120 samples with distances
    [np.linspace(0, 1200, 120)], segmenting into 60 parts puts exactly 2
    samples (120 / 60) in every segment, and the final sample (row 119, at
    distance 1200) is in segment 59. *)
Theorem synthetic_lap_segments :
  exists out, segment_lap synthetic_lap 60 = Ok out
    /\ (forall k, (0 <= k < 60)%Z -> count_seg out k = 2%nat)
    /\ (exists s, In s out /\ row_id (srow s) = 119%nat /\ lapdist (srow s) == 1200
                  /\ segment_id s = 59%Z).
Proof.
  assert (H : match segment_lap synthetic_lap 60 with
              | Ok out => counts_are 2 out && has_tagged 119 1200 59 out
              | Err _ => false end = true) by (vm_compute; reflexivity).
  destruct (segment_lap synthetic_lap 60) as [out|e]; [|discriminate].
  apply andb_true_iff in H as [H1 H2].
  exists out. split; [reflexivity|]. split.
  - apply counts_are_spec, H1.
  - apply has_tagged_spec, H2.
Qed.

(** [C8] counterexample: no segment of that lap holds 20 samples. *)
Lemma synthetic_lap_not_20 :
  ~ exists out, segment_lap synthetic_lap 60 = Ok out
      /\ (forall k, (0 <= k < 60)%Z -> count_seg out k = 20%nat).
Proof.
  intros [out [E H]].
  assert (C : match segment_lap synthetic_lap 60 with
              | Ok o => count_seg o 0 | Err _ => 0%nat end = 2%nat)
    by (vm_compute; reflexivity).
  rewrite E in C. rewrite (H 0%Z ltac:(lia)) in C. discriminate.
Qed.

Lemma segment_lap_zero_or_empty_witness :
  (forall r, In r [mkRow 0 0; mkRow 1 0] -> lapdist r == 0)
  /\ segment_lap [mkRow 0 0; mkRow 1 0] 60 = Err IntCastingNaNError.
Proof.
  assert (Hz : forall r, In r [mkRow 0 0; mkRow 1 0] -> lapdist r == 0).
  { intros r [<-|[<-|[]]]; reflexivity. }
  split; [exact Hz|].
  exact (segment_lap_zero_or_empty [mkRow 0 0; mkRow 1 0] 60 Hz).
Defined.

(** [C1] counterexample: the empty table is not rejected, it is returned as an
    empty table. *)
Lemma segment_lap_empty_ok : segment_lap [] 60 = Ok [].
Proof. reflexivity. Qed.

Lemma segment_lap_sorted_witness :
  max_pos [mkRow 0 5; mkRow 1 0; mkRow 2 10]
  /\ exists out, segment_lap [mkRow 0 5; mkRow 1 0; mkRow 2 10] 2 = Ok out
    /\ Sorted (fun a b => lapdist (srow a) <= lapdist (srow b)) out
    /\ Sorted (fun a b => (segment_id a <= segment_id b)%Z) out.
Proof.
  assert (Hp : max_pos [mkRow 0 5; mkRow 1 0; mkRow 2 10]).
  { exists 10. split; [vm_compute; reflexivity|reflexivity]. }
  split; [exact Hp|]. exact (segment_lap_sorted _ 2 Hp).
Defined.

Lemma segment_lap_ids_witness :
  exists out, segment_lap [mkRow 0 5; mkRow 1 0; mkRow 2 10] 2 = Ok out
    /\ Permutation (map srow out) [mkRow 0 5; mkRow 1 0; mkRow 2 10]
    /\ (forall s, In s out ->
          segment_id s = Z.min (Qfloor (lapdist (srow s) / (10 / inject_Z 2))) (2 - 1)
          /\ (0 <= segment_id s <= 2 - 1)%Z)
    /\ (forall s, In s out -> lapdist (srow s) == 10 -> segment_id s = (2 - 1)%Z).
Proof.
  apply (segment_lap_ids _ 2 10).
  - vm_compute. reflexivity.
  - reflexivity.
  - lia.
  - intros r [<-|[<-|[<-|[]]]]; simpl; discriminate.
Defined.

End SegmentLapFacts.

(** ** Facts about [compute_cli] and [normalize_series] *)
Module CliModelFacts.
Import CliModel.
Local Open Scope Q_scope.
Local Open Scope string_scope.
Local Open Scope list_scope.

Lemma fold_pick (g : Q -> Q -> Q) (Hg : forall a b, g a b = a \/ g a b = b)
      (t : list Q) (a : Q) :
  fold_left g t a = a \/ In (fold_left g t a) t.
Proof.
  revert a. induction t as [|x t IH]; intro a; simpl; [left; reflexivity|].
  destruct (IH (g a x)) as [E|E]; [|right; right; exact E].
  rewrite E. destruct (Hg a x) as [-> | ->]; [left|right; left]; reflexivity.
Qed.

Lemma qmin_pick (a b : Q) : qmin a b = a \/ qmin a b = b.
Proof. unfold qmin. destruct (Qle_bool a b); auto. Qed.

Lemma qmax_pick (a b : Q) : qmax a b = a \/ qmax a b = b.
Proof. unfold qmax. destruct (Qle_bool a b); auto. Qed.

(** [C4] Normalising a constant series (every value equal to [c], so that
    max equals min) returns a series of the same length whose every value is
    exactly 0; the division branch is not taken. *)
Theorem normalize_constant (s : list Q) (c : Q) (Hc : forall x, In x s -> x == c) :
  length (normalize_series s) = length s
  /\ forall y, In y (normalize_series s) -> y == 0.
Proof.
  destruct s as [|x t]; [split; [reflexivity|intros _ []]|].
  unfold normalize_series, series_min, series_max.
  assert (Hmin : fold_left qmin t x == c).
  { destruct (fold_pick qmin qmin_pick t x) as [E|E]; rewrite ?E; apply Hc;
      [left; reflexivity|right; exact E]. }
  assert (Hmax : fold_left qmax t x == c).
  { destruct (fold_pick qmax qmax_pick t x) as [E|E]; rewrite ?E; apply Hc;
      [left; reflexivity|right; exact E]. }
  assert (E0 : Qeq_bool (fold_left qmax t x - fold_left qmin t x) 0 = true).
  { apply Qeq_bool_iff. rewrite Hmin, Hmax. ring. }
  rewrite E0. split; [apply length_map|].
  intros y Hy. apply in_map_iff in Hy. destruct Hy as [z [<- _]]. apply Qmult_0_r.
Qed.

Lemma normalize_constant_witness :
  (forall x, In x [3; 3; 3] -> x == 3)
  /\ length (normalize_series [3; 3; 3]) = length [3; 3; 3]
  /\ forall y, In y (normalize_series [3; 3; 3]) -> y == 0.
Proof.
  assert (Hc : forall x, In x [3; 3; 3] -> x == 3).
  { intros x [<-|[<-|[<-|[]]]]; reflexivity. }
  split; [exact Hc|]. exact (normalize_constant [3; 3; 3] 3 Hc).
Defined.

Lemma length_upd (h : heap) (d : loc) (f : Frame) : length (upd h d f) = length h.
Proof.
  revert d. induction h as [|g t IH]; intro d; destruct d; simpl; auto.
Qed.

Lemma nth_error_upd_same (h : heap) (d : loc) (f : Frame) :
  (d < length h)%nat -> nth_error (upd h d f) d = Some f.
Proof.
  revert d. induction h as [|g t IH]; intros d Hd; simpl in Hd; [lia|].
  destruct d; simpl; [reflexivity|]. apply IH. lia.
Qed.

Lemma nth_error_upd_other (h : heap) (d k : loc) (f : Frame) :
  k <> d -> nth_error (upd h d f) k = nth_error h k.
Proof.
  revert d k. induction h as [|g t IH]; intros d k Hk; destruct d, k; simpl; auto.
  - congruence.
Qed.

Lemma set_col_names (f : Frame) (c : string) (v : list Q) :
  ~ In c (map fst f) -> map fst (set_col f c v) = map fst f ++ [c].
Proof.
  induction f as [|[c' v'] t IH]; intro Hc; simpl; [reflexivity|].
  destruct (String.eqb c c') eqn:E.
  - apply String.eqb_eq in E. subst. exfalso. apply Hc. left. reflexivity.
  - simpl. f_equal. apply IH. intro H. apply Hc. right. exact H.
Qed.

Lemma get_set_other (f : Frame) (c c0 : string) (v : list Q) :
  c0 <> c -> get_col (set_col f c v) c0 = get_col f c0.
Proof.
  intro Hne. induction f as [|[c' v'] t IH]; simpl.
  - destruct (String.eqb c0 c) eqn:E; [apply String.eqb_eq in E; congruence|reflexivity].
  - destruct (String.eqb c c') eqn:E.
    + apply String.eqb_eq in E. subst. simpl.
      destruct (String.eqb c0 c') eqn:E0; [apply String.eqb_eq in E0; congruence|reflexivity].
    + simpl. destruct (String.eqb c0 c'); [reflexivity|exact IH].
Qed.

Lemma cli_inv_init (h : heap) (f : Frame) : cli_inv h f [] (h ++ [f]).
Proof.
  split; [rewrite length_app; simpl; lia|]. split.
  - intros k Hk. apply nth_error_app1. exact Hk.
  - exists f. split; [|split].
    + rewrite nth_error_app2 by lia. rewrite Nat.sub_diag. reflexivity.
    + rewrite app_nil_r. reflexivity.
    + reflexivity.
Qed.

Lemma cli_inv_step (h : heap) (f : Frame) (pre : list string) (h' h'' : heap)
      (c : string) (e : Frame -> option (list Q)) :
  cli_inv h f pre h' -> ~ In c (map fst f) -> ~ In c pre ->
  setitem h' (length h) c e = Some h'' -> cli_inv h f (pre ++ [c]) h''.
Proof.
  intros [Hlen [Hold [f' [Hf' [Hn Hg]]]]] Hcf Hcp Hs.
  unfold setitem in Hs. rewrite Hf' in Hs.
  destruct (e f') as [v|]; [|discriminate]. injection Hs as <-.
  split; [rewrite length_upd; exact Hlen|]. split.
  - intros k Hk. rewrite nth_error_upd_other by lia. apply Hold, Hk.
  - exists (set_col f' c v). split; [|split].
    + apply nth_error_upd_same. lia.
    + rewrite set_col_names, Hn, app_assoc; [reflexivity|].
      rewrite Hn. intro H. apply in_app_or in H as [H|H]; auto.
    + intros c0 Hc0. rewrite get_set_other; [apply Hg, Hc0|].
      intro E. subst. contradiction.
Qed.

(** One assignment of [compute_cli] to a column not yet present. *)
Ltac cli_step I E c I' :=
  let H := fresh in
  pose proof (fun H1 H2 => cli_inv_step _ _ _ _ _ c _ I H1 H2 E) as H;
  simpl app in H;
  specialize (H ltac:(match goal with Hn : forall c, In c added_cols -> _ |- _ =>
                        apply Hn; simpl; tauto end)
                ltac:(simpl; intuition discriminate));
  rename H into I'.

(** [C10] [compute_cli] works on a fresh copy of its input: on success it
    returns a new location, every object of the store (the input metrics
    table included) is unchanged, and the returned table has the input's
    columns, with the input's values, followed by exactly the added columns
    [norm_steering], [norm_throttle], [norm_brake], [norm_lat], [CLI] and
    [CLI_smooth] (for an input that has none of these yet, as the metrics
    table does not). *)
Theorem compute_cli_frame (h : heap) (l : loc) (f : Frame) (h' : heap) (l' : loc)
  (Hf : nth_error h l = Some f)
  (Hnew : forall c, In c added_cols -> ~ In c (map fst f))
  (Hrun : compute_cli h l = Some (h', l')) :
  l' = length h /\ l' <> l /\ nth_error h' l = Some f
  /\ (forall k, (k < length h)%nat -> nth_error h' k = nth_error h k)
  /\ exists f', nth_error h' l' = Some f'
       /\ map fst f' = map fst f ++ added_cols
       /\ (forall c, In c (map fst f) -> get_col f' c = get_col f c).
Proof.
  assert (Hl : (l < length h)%nat) by (apply nth_error_Some; congruence).
  unfold compute_cli in Hrun. rewrite Hf in Hrun. cbv zeta in Hrun.
  pose proof (cli_inv_init h f) as I0.
  destruct (setitem (h ++ [f]) (length h) "norm_steering" _) as [h1|] eqn:E1;
    [|discriminate].
  cli_step I0 E1 "norm_steering" I1.
  destruct (setitem h1 (length h) "norm_throttle" _) as [h2|] eqn:E2; [|discriminate].
  cli_step I1 E2 "norm_throttle" I2.
  destruct (setitem h2 (length h) "norm_brake" _) as [h3|] eqn:E3; [|discriminate].
  cli_step I2 E3 "norm_brake" I3.
  destruct (setitem h3 (length h) "norm_lat" _) as [h4|] eqn:E4; [|discriminate].
  cli_step I3 E4 "norm_lat" I4.
  destruct (setitem h4 (length h) "CLI" _) as [h5|] eqn:E5; [|discriminate].
  cli_step I4 E5 "CLI" I5.
  destruct (setitem h5 (length h) "CLI_smooth" _) as [h6|] eqn:E6; [|discriminate].
  cli_step I5 E6 "CLI_smooth" I6.
  injection Hrun as <- <-.
  destruct I6 as [_ [Hold [f' [Hf' [Hn Hg]]]]].
  split; [reflexivity|]. split; [lia|]. split; [rewrite Hold by exact Hl; exact Hf|].
  split; [exact Hold|]. exists f'. split; [exact Hf'|]. split; [exact Hn|exact Hg].
Qed.

Lemma compute_cli_frame_witness :
  exists h' l', compute_cli [sample_metrics] 0%nat = Some (h', l')
    /\ l' = length [sample_metrics] /\ l' <> 0%nat
    /\ nth_error h' 0%nat = Some sample_metrics
    /\ (forall k, (k < length [sample_metrics])%nat -> nth_error h' k = nth_error [sample_metrics] k)
    /\ exists f', nth_error h' l' = Some f'
         /\ map fst f' = map fst sample_metrics ++ added_cols
         /\ (forall c, In c (map fst sample_metrics) -> get_col f' c = get_col sample_metrics c).
Proof.
  assert (Hok : match compute_cli [sample_metrics] 0%nat with Some _ => true | None => false end
                = true) by (vm_compute; reflexivity).
  destruct (compute_cli [sample_metrics] 0%nat) as [[h' l']|] eqn:E; [|discriminate].
  exists h', l'. split; [reflexivity|].
  apply (compute_cli_frame [sample_metrics] 0%nat sample_metrics h' l').
  - reflexivity.
  - intros c Hc. simpl in Hc.
    repeat (destruct Hc as [<-|Hc]; [simpl; intuition discriminate|]). destruct Hc.
  - exact E.
Defined.

End CliModelFacts.

(** ** Facts about the Primary Cause attribution *)
Module InsightsFacts.
Import Insights.
Local Open Scope Q_scope.
Local Open Scope string_scope.
Local Open Scope list_scope.

Lemma Qlt_bool_iff_ins (a b : Q) : Qlt_bool a b = true <-> a < b.
Proof.
  unfold Qlt_bool. rewrite negb_true_iff. split; intro H.
  - apply Qnot_le_lt. intro H'. apply Qle_bool_iff in H'. congruence.
  - destruct (Qle_bool b a) eqn:E; [|reflexivity].
    apply Qle_bool_iff in E. exfalso. apply (Qlt_not_le a b); assumption.
Qed.

Lemma Qlt_bool_false (a b : Q) : Qlt_bool a b = false -> b <= a.
Proof.
  unfold Qlt_bool. rewrite negb_false_iff. apply Qle_bool_iff.
Qed.

Lemma fold_qmin_le (t : list Q) (a : Q) :
  fold_left qmin t a <= a /\ forall x, In x t -> fold_left qmin t a <= x.
Proof.
  revert a. induction t as [|x t IH]; intro a; simpl.
  - split; [apply Qle_refl|intros _ []].
  - destruct (IH (qmin a x)) as [H1 H2].
    assert (Ha : qmin a x <= a /\ qmin a x <= x).
    { unfold qmin. destruct (Qle_bool a x) eqn:E.
      - apply Qle_bool_iff in E. split; [apply Qle_refl|exact E].
      - split; [|apply Qle_refl].
        apply Qlt_le_weak, Qnot_le_lt. intro H. apply Qle_bool_iff in H. congruence. }
    split; [eapply Qle_trans; [exact H1|apply Ha]|].
    intros y [<-|Hy]; [eapply Qle_trans; [exact H1|apply Ha]|auto].
Qed.

(** Normalised values are non-negative. *)
Lemma norm_col_nonneg (segs : list SegMetrics) (m : metric) (v : Q) :
  In v (norm_col segs m) -> 0 <= v.
Proof.
  unfold norm_col. destruct (map (fun r => get r m) segs) as [|x t] eqn:Ecol; [intros []|].
  destruct (fold_qmin_le t x) as [Hx Ht].
  destruct (Qlt_bool 0 _) eqn:Ep; intro Hv; apply in_map_iff in Hv;
    destruct Hv as [y [<- Hy]].
  - apply Qlt_bool_iff_ins in Ep. apply Qle_shift_div_l; [exact Ep|].
    rewrite Qmult_0_l.
    assert (fold_left qmin t x <= y) by (destruct Hy as [<-|Hy]; [exact Hx|apply Ht, Hy]).
    lra.
  - apply Qle_refl.
Qed.

Lemma norm_row_nonneg (segs : list SegMetrics) (i : nat) (m : metric) :
  0 <= norm_row segs i m.
Proof.
  unfold norm_row. destruct (Nat.lt_ge_cases i (length (norm_col segs m))) as [H|H].
  - apply (norm_col_nonneg segs m). apply nth_In, H.
  - rewrite nth_overflow by exact H. apply Qle_refl.
Qed.

Lemma weights_get_cause_weight (m : metric) : weights_get m 0.1 = cause_weight m.
Proof. destruct m; reflexivity. Qed.

Ltac split_steps :=
  repeat (cbn [fst snd];
    match goal with
    | |- context [Qlt_bool ?a ?b] =>
        lazymatch a with context [Qlt_bool _ _] => fail | _ => idtac end;
        let E := fresh "E" in
        destruct (Qlt_bool a b) eqn:E;
        [apply Qlt_bool_iff_ins in E|apply Qlt_bool_false in E]
    end).

Ltac pick_with m :=
  exists m; split; [reflexivity|];
  split; [intros []; simpl; lra | intros []; simpl; intro Hlt; (exfalso; lia) || lra].

Ltac pick_metric :=
  first [ pick_with steering_entropy | pick_with throttle_jerk | pick_with brake_panic
        | pick_with lat_instability | pick_with long_jerk ].

(** The loop returns the first metric, in [metrics] order, whose weighted
    value is maximal, for any row of non-negative values. *)
Lemma get_primary_cause_argmax (row : metric -> Q) (Hrow : forall m, 0 <= row m) :
  exists m, get_primary_cause row = metric_name m
    /\ (forall m', row m' * cause_weight m' <= row m * cause_weight m)
    /\ (forall m', (metric_index m' < metric_index m)%nat ->
                   row m' * cause_weight m' < row m * cause_weight m).
Proof.
  pose proof (Hrow steering_entropy). pose proof (Hrow throttle_jerk).
  pose proof (Hrow brake_panic). pose proof (Hrow lat_instability).
  pose proof (Hrow long_jerk).
  unfold get_primary_cause, metrics. simpl fold_left. unfold cause_step.
  rewrite !weights_get_cause_weight. simpl fst. simpl cause_weight.
  split_steps; try lra; pick_metric.
Qed.

(** [C2] (amended) For every segment table and every segment, the Primary
    Cause is the first metric, in the order steering_entropy, throttle_jerk,
    brake_panic, lat_instability, long_jerk, whose normalised value times its
    weight is largest, the weights being those of the [weights] dict:
    0.4 / 0.3 / 0.2 / 0.1 and 0.0 for long_jerk. *)
Theorem primary_cause_first_max (segs : list SegMetrics) (i : nat)
  (Hi : (i < length segs)%nat) :
  exists m, nth i (primary_causes segs) "" = metric_name m
    /\ (forall m', norm_row segs i m' * cause_weight m' <= norm_row segs i m * cause_weight m)
    /\ (forall m', (metric_index m' < metric_index m)%nat ->
          norm_row segs i m' * cause_weight m' < norm_row segs i m * cause_weight m).
Proof.
  unfold primary_causes.
  rewrite (nth_indep _ "" ((fun j => get_primary_cause (norm_row segs j)) 0%nat))
    by (rewrite length_map, length_seq; exact Hi).
  rewrite (map_nth (fun j => get_primary_cause (norm_row segs j))).
  rewrite seq_nth by exact Hi. simpl.
  apply get_primary_cause_argmax. intro m. apply norm_row_nonneg.
Qed.

Lemma primary_cause_first_max_witness :
  (1 < length long_jerk_segs)%nat /\
  exists m, nth 1 (primary_causes long_jerk_segs) "" = metric_name m
    /\ (forall m', norm_row long_jerk_segs 1 m' * cause_weight m'
                   <= norm_row long_jerk_segs 1 m * cause_weight m)
    /\ (forall m', (metric_index m' < metric_index m)%nat ->
          norm_row long_jerk_segs 1 m' * cause_weight m'
          < norm_row long_jerk_segs 1 m * cause_weight m).
Proof.
  assert (H : (1 < length long_jerk_segs)%nat) by (simpl; lia).
  split; [exact H|]. exact (primary_cause_first_max long_jerk_segs 1 H).
Defined.

(** [C2] counterexample: in a table where only long_jerk varies, the second
    segment's long_jerk scores 1 * 0.1 under the claimed weights, strictly
    above every other metric (0), yet the code names steering_entropy: the
    dict gives long_jerk the weight 0.0, the 0.1 is only [get]'s default. *)
Lemma primary_cause_long_jerk_cex :
  primary_causes long_jerk_segs = ["steering_entropy"; "steering_entropy"]
  /\ forall m, m <> long_jerk ->
       norm_row long_jerk_segs 1 m * claimed_weight m
       < norm_row long_jerk_segs 1 long_jerk * claimed_weight long_jerk.
Proof.
  split; [vm_compute; reflexivity|].
  intros [] Hm; try (vm_compute; reflexivity). congruence.
Qed.

End InsightsFacts.

(** ** Facts about [process_lap_data] *)
Module ProcessorFacts.
Import Processor.
Local Open Scope R_scope.
Local Open Scope list_scope.

Example str_Z_42 : str_Z 42 = "42"%string.
Proof. reflexivity. Qed.

Example str_Z_neg : str_Z (-107) = "-107"%string.
Proof. reflexivity. Qed.

Lemma str_app_assoc (a b c : string) : (a ++ (b ++ c) = (a ++ b) ++ c)%string.
Proof. induction a as [|x a IH]; simpl; [reflexivity|]. rewrite IH. reflexivity. Qed.

Lemma str_app_nil (a : string) : (a ++ "" = a)%string.
Proof. induction a as [|x a IH]; simpl; [reflexivity|]. rewrite IH. reflexivity. Qed.

Lemma filter_concat {A : Type} (f : A -> bool) (ll : list (list A)) :
  filter f (concat ll) = concat (map (filter f) ll).
Proof.
  induction ll as [|l ll IH]; simpl; [reflexivity|]. rewrite filter_app, IH. reflexivity.
Qed.

Lemma drop_empty_chunks {A : Type} (ll : list (list A)) :
  concat ll = [] -> filter (fun c => match c with [] => false | _ :: _ => true end) ll = [].
Proof.
  induction ll as [|l ll IH]; simpl; [reflexivity|]. intro H.
  apply app_eq_nil in H as [-> H]. apply IH, H.
Qed.

(** [C7] When the vehicle/lap filter matches no row of the source, loading
    raises [ValueError] (it never returns a table), and the message contains
    the requested vehicle id and the lap number. *)
Theorem load_no_match_fails (src : Source) (vehicle_id : string) (lap : Z)
  (Hnone : matching_rows src vehicle_id lap = []) :
  exists msg, load_filtered src vehicle_id lap = LoadFailed (ValueError msg)
    /\ contains msg vehicle_id /\ contains msg (str_Z lap).
Proof.
  unfold load_filtered. unfold matching_rows in Hnone.
  destruct (has_columns src).
  - rewrite filter_concat in Hnone. rewrite (drop_empty_chunks _ Hnone).
    eexists. split; [reflexivity|]. split.
    + exists "No data found for "%string, (" Lap " ++ str_Z lap)%string. reflexivity.
    + exists ("No data found for " ++ vehicle_id ++ " Lap ")%string, ""%string.
      rewrite str_app_nil, <- !str_app_assoc. reflexivity.
  - eexists. split; [reflexivity|]. split.
    + exists "No data found for "%string, (" Lap " ++ str_Z lap)%string. reflexivity.
    + exists ("No data found for " ++ vehicle_id ++ " Lap ")%string, ""%string.
      rewrite str_app_nil, <- !str_app_assoc. reflexivity.
Qed.

(** A source holding only rows of another vehicle. *)
Definition other_vehicle_source : Source :=
  mkSource true [[mkRaw "GR86-002-000" 3 "speed" 0 0];
                 [mkRaw "GR86-002-000" 4 "ath" 0 1]].

Lemma load_no_match_fails_witness :
  matching_rows other_vehicle_source "GR86-010-016" 3 = []
  /\ exists msg, load_filtered other_vehicle_source "GR86-010-016" 3
                 = LoadFailed (ValueError msg)
    /\ contains msg "GR86-010-016" /\ contains msg (str_Z 3).
Proof.
  assert (H : matching_rows other_vehicle_source "GR86-010-016" 3 = []) by reflexivity.
  split; [exact H|]. exact (load_no_match_fails _ _ _ H).
Defined.

Lemma max_gt_iff (l : list R) (c : R) : max_gt l c = true <-> max_exceeds l c.
Proof.
  unfold max_gt, max_exceeds. destruct (col_max l) as [m|].
  - destruct (Rlt_dec c m) as [H|H]; split; intro E.
    + exists m. split; [reflexivity|exact H].
    + reflexivity.
    + discriminate.
    + destruct E as [m' [Em Hm]]. injection Em as <-. contradiction.
  - split; [discriminate|]. intros [m [Em _]]. discriminate.
Qed.

Lemma max_gt_false (l : list R) (c : R) : ~ max_exceeds l c -> max_gt l c = false.
Proof.
  intro H. destruct (max_gt l c) eqn:E; [|reflexivity].
  exfalso. apply H, max_gt_iff, E.
Qed.

Lemma throttle_after_steering (df : list Wide) :
  map throttle (normalize_steering df) = map throttle df.
Proof. unfold normalize_steering. rewrite map_map. reflexivity. Qed.

Lemma brake_after_throttle (df : list Wide) :
  map brake_pressure (normalize_throttle df) = map brake_pressure df.
Proof.
  unfold normalize_throttle. destruct (max_gt _ _); [|reflexivity].
  rewrite map_map. reflexivity.
Qed.

Lemma brake_after_steering (df : list Wide) :
  map brake_pressure (normalize_steering df) = map brake_pressure df.
Proof. unfold normalize_steering. rewrite map_map. reflexivity. Qed.

(** The three steps of [normalize_signals] leave the other columns alone. *)
Lemma normalize_keeps (f : Wide -> R) (df : list Wide)
  (Hs : forall v r, f (set_steering v r) = f r)
  (Ht : forall v r, f (set_throttle v r) = f r)
  (Hb : forall v r, f (set_brake v r) = f r) :
  map f (normalize_signals df) = map f df.
Proof.
  unfold normalize_signals, normalize_brake, normalize_throttle, normalize_steering.
  assert (Es : map f (map (fun r => set_steering (Steering_Angle r / 450) r) df) = map f df).
  { rewrite map_map. apply map_ext. intro; apply Hs. }
  set (d1 := map (fun r => set_steering (Steering_Angle r / 450) r) df) in *.
  assert (Et : map f (if max_gt (map throttle d1) 1
                      then map (fun r => set_throttle (throttle r / 100) r) d1 else d1)
               = map f df).
  { destruct (max_gt _ _); [rewrite map_map; rewrite <- Es; apply map_ext; intro; apply Ht|exact Es]. }
  set (d2 := if max_gt (map throttle d1) 1
             then map (fun r => set_throttle (throttle r / 100) r) d1 else d1) in *.
  destruct (max_gt (map brake_pressure d2) 0); [|exact Et].
  destruct (col_max (map brake_pressure d2)); [|exact Et].
  rewrite map_map, <- Et. apply map_ext. intro; apply Hb.
Qed.

Lemma speed_kept (df : list Wide) : map speed (normalize_signals df) = map speed df.
Proof. apply normalize_keeps; reflexivity. Qed.

Lemma timestamp_kept (df : list Wide) :
  map timestamp (normalize_signals df) = map timestamp df.
Proof. apply normalize_keeps; reflexivity. Qed.

Lemma steering_kept_later (df : list Wide) :
  map Steering_Angle (normalize_brake (normalize_throttle df)) = map Steering_Angle df.
Proof.
  unfold normalize_brake, normalize_throttle.
  destruct (max_gt (map throttle df) 1);
  [set (d2 := map (fun r => set_throttle (throttle r / 100) r) df)|set (d2 := df)];
  (assert (E2 : map Steering_Angle d2 = map Steering_Angle df)
     by (unfold d2; rewrite ?map_map; reflexivity));
  (destruct (max_gt (map brake_pressure d2) 0); [|exact E2]);
  (destruct (col_max (map brake_pressure d2)); [|exact E2]);
  rewrite map_map; (etransitivity; [|exact E2]); reflexivity.
Qed.

Lemma throttle_kept_by_brake (df : list Wide) :
  map throttle (normalize_brake df) = map throttle df.
Proof.
  unfold normalize_brake. destruct (max_gt _ _); [|reflexivity].
  destruct (col_max _); [|reflexivity]. rewrite map_map. reflexivity.
Qed.

(** [C6] The loader's unit normalisation: steering is always divided by 450;
    throttle is divided by 100 exactly when its observed maximum exceeds 1;
    brake pressure is divided by its observed maximum when that maximum is
    positive; the speed used as m/s is the column divided by 3.6 exactly when
    its observed maximum exceeds 100.  (The stored [speed] column itself is
    left as read; the conversion feeds the track reconstruction.) *)
Theorem unit_normalization (wide : list Wide) :
  map Steering_Angle (normalize_signals wide) = map (fun r => Steering_Angle r / 450) wide
  /\ (max_exceeds (map throttle wide) 1 ->
      map throttle (normalize_signals wide) = map (fun r => throttle r / 100) wide)
  /\ (~ max_exceeds (map throttle wide) 1 ->
      map throttle (normalize_signals wide) = map throttle wide)
  /\ (forall m, col_max (map brake_pressure wide) = Some m -> 0 < m ->
      map brake_pressure (normalize_signals wide) = map (fun r => brake_pressure r / m) wide)
  /\ (~ max_exceeds (map brake_pressure wide) 0 ->
      map brake_pressure (normalize_signals wide) = map brake_pressure wide)
  /\ (max_exceeds (map speed wide) 100 ->
      speed_ms_col (normalize_signals wide) = map (fun r => speed r / 3.6) wide)
  /\ (~ max_exceeds (map speed wide) 100 ->
      speed_ms_col (normalize_signals wide) = map speed wide)
  /\ map speed (normalize_signals wide) = map speed wide.
Proof.
  assert (Hb1 : map brake_pressure (normalize_throttle (normalize_steering wide))
                = map brake_pressure wide)
    by (rewrite brake_after_throttle, brake_after_steering; reflexivity).
  split; [|split; [|split; [|split; [|split; [|split; [|split]]]]]].
  - unfold normalize_signals. rewrite steering_kept_later.
    unfold normalize_steering. rewrite map_map. reflexivity.
  - intro H. unfold normalize_signals. rewrite throttle_kept_by_brake.
    unfold normalize_throttle. rewrite throttle_after_steering.
    apply max_gt_iff in H. rewrite H. unfold normalize_steering. rewrite !map_map. reflexivity.
  - intro H. unfold normalize_signals. rewrite throttle_kept_by_brake.
    unfold normalize_throttle. rewrite throttle_after_steering.
    rewrite (max_gt_false _ _ H). apply throttle_after_steering.
  - intros m Hm Hpos. unfold normalize_signals, normalize_brake. rewrite !Hb1.
    assert (E : max_gt (map brake_pressure wide) 0 = true)
      by (apply max_gt_iff; exists m; split; assumption).
    rewrite E, Hm.
    transitivity (map (fun x => x / m)
                   (map brake_pressure (normalize_throttle (normalize_steering wide)))).
    + rewrite !map_map. reflexivity.
    + rewrite Hb1, map_map. reflexivity.
  - intro H. unfold normalize_signals, normalize_brake. rewrite Hb1.
    rewrite (max_gt_false _ _ H). exact Hb1.
  - intro H. unfold speed_ms_col. rewrite speed_kept.
    apply max_gt_iff in H. rewrite H.
    transitivity (map (fun x => x / 3.6) (map speed (normalize_signals wide))).
    + rewrite map_map. reflexivity.
    + rewrite speed_kept, map_map. reflexivity.
  - intro H. unfold speed_ms_col. rewrite speed_kept, (max_gt_false _ _ H). apply speed_kept || reflexivity.
  - apply speed_kept.
Qed.

Lemma unit_normalization_witness :
  let w := [mkWide 0 90 50 20 0 0 150; mkWide 1 (-45) 80 40 0 0 120] in
  map Steering_Angle (normalize_signals w) = map (fun r => Steering_Angle r / 450) w
  /\ (max_exceeds (map throttle w) 1 ->
      map throttle (normalize_signals w) = map (fun r => throttle r / 100) w)
  /\ (~ max_exceeds (map throttle w) 1 ->
      map throttle (normalize_signals w) = map throttle w)
  /\ (forall m, col_max (map brake_pressure w) = Some m -> 0 < m ->
      map brake_pressure (normalize_signals w) = map (fun r => brake_pressure r / m) w)
  /\ (~ max_exceeds (map brake_pressure w) 0 ->
      map brake_pressure (normalize_signals w) = map brake_pressure w)
  /\ (max_exceeds (map speed w) 100 ->
      speed_ms_col (normalize_signals w) = map (fun r => speed r / 3.6) w)
  /\ (~ max_exceeds (map speed w) 100 ->
      speed_ms_col (normalize_signals w) = map speed w)
  /\ map speed (normalize_signals w) = map speed w.
Proof. intro w. exact (unit_normalization w). Defined.

Lemma length_zipw (f : R -> R -> R) (a b : list R) :
  length (zipw f a b) = Nat.min (length a) (length b).
Proof. unfold zipw. rewrite length_map, length_combine. reflexivity. Qed.

Lemma length_cumsum_from (acc : R) (l : list R) : length (cumsum_from acc l) = length l.
Proof. revert acc. induction l; intro; simpl; auto. Qed.

Lemma length_cumsum (l : list R) : length (cumsum l) = length l.
Proof. destruct l; simpl; [reflexivity|]. rewrite length_cumsum_from. reflexivity. Qed.

Lemma cumsum_from_zero (l : list R) : cumsum l = cumsum_from 0 l.
Proof. destruct l; simpl; [reflexivity|]. rewrite Rplus_0_l. reflexivity. Qed.

Lemma length_diffs (p : R) (l : list R) : length (diffs p l) = length l.
Proof. revert p. induction l; intro; simpl; auto. Qed.

Lemma length_dt_col (df : list Wide) : length (dt_col df) = length df.
Proof.
  unfold dt_col, time_deltas. destruct df; simpl; [reflexivity|].
  rewrite length_diffs, length_map. reflexivity.
Qed.

Lemma length_speed_ms_col (df : list Wide) : length (speed_ms_col df) = length df.
Proof. unfold speed_ms_col. destruct (max_gt _ _); apply length_map. Qed.

Lemma map_fst_combine {A B : Type} (a : list A) (b : list B) :
  length a = length b -> map fst (combine a b) = a.
Proof.
  revert b. induction a as [|x a IH]; intros [|y b] H; simpl in *; try congruence.
  rewrite IH by congruence. reflexivity.
Qed.

Lemma map_snd_combine {A B : Type} (a : list A) (b : list B) :
  length a = length b -> map snd (combine a b) = b.
Proof.
  revert b. induction a as [|x a IH]; intros [|y b] H; simpl in *; try congruence.
  rewrite IH by congruence. reflexivity.
Qed.

(** The code's yaw rate column is the spec's formula, sample by sample. *)
Lemma yaw_rate_spec (df : list Wide) :
  yaw_rate_col df = zipw spec_yaw (map Steering_Angle df) (speed_ms_col df).
Proof.
  unfold yaw_rate_col, wheel_angle_col. generalize (speed_ms_col df) as vs.
  induction df as [|r df IH]; intros [|v vs]; simpl; try reflexivity.
  unfold zipw in *. simpl. f_equal. apply IH.
Qed.

(** Cumulative sums of a scan's increments are the scan's components. *)
Lemma scan_cols (st : DRState) (inp : list (R * R * R)) :
  let ds := map inp_dt inp in
  let ys := map inp_yaw inp in
  let vs := map inp_v inp in
  let hs := cumsum_from (dr_heading st) (zipw Rmult ys ds) in
  map dr_heading (dr_scan st inp) = hs
  /\ map dr_x (dr_scan st inp)
     = cumsum_from (dr_x st) (zipw Rmult (zipw (fun v h => v * cos h) vs hs) ds)
  /\ map dr_y (dr_scan st inp)
     = cumsum_from (dr_y st) (zipw Rmult (zipw (fun v h => v * sin h) vs hs) ds)
  /\ map dr_dist (dr_scan st inp) = cumsum_from (dr_dist st) (zipw Rmult vs ds).
Proof.
  revert st. induction inp as [|[[dt yaw] v] t IH]; intro st; simpl.
  - repeat split.
  - destruct (IH (dr_step st dt yaw v)) as [H1 [H2 [H3 H4]]]. simpl in H1, H2, H3, H4.
    unfold zipw in *. simpl.
    rewrite H1, H2, H3, H4. repeat split.
Qed.

Lemma spec_inputs_cols (df : list Wide) :
  map inp_dt (spec_inputs df) = dt_col df
  /\ map inp_yaw (spec_inputs df) = yaw_rate_col df
  /\ map inp_v (spec_inputs df) = speed_ms_col df.
Proof.
  unfold spec_inputs. rewrite <- yaw_rate_spec.
  assert (Ly : length (yaw_rate_col df) = length df).
  { unfold yaw_rate_col, wheel_angle_col.
    rewrite length_zipw, length_speed_ms_col, !length_map. apply Nat.min_id. }
  assert (L1 : length (combine (dt_col df) (yaw_rate_col df)) = length (speed_ms_col df)).
  { rewrite length_combine, length_dt_col, Ly, length_speed_ms_col. apply Nat.min_id. }
  split; [|split].
  - unfold inp_dt. rewrite <- (map_map fst fst), map_fst_combine, map_fst_combine by
      (rewrite ?length_dt_col, ?Ly; auto). reflexivity.
  - unfold inp_yaw. rewrite <- (map_map fst snd), map_fst_combine by exact L1.
    apply map_snd_combine. rewrite length_dt_col, Ly. reflexivity.
  - apply map_snd_combine, L1.
Qed.

Lemma map_triple {A : Type} (f g h : A -> R) (l : list A) :
  map (fun a => (f a, g a, h a)) l = combine (combine (map f l) (map g l)) (map h l).
Proof. induction l as [|a l IH]; simpl; [reflexivity|]. rewrite IH. reflexivity. Qed.

Lemma assemble_cols (df : list Wide) (dt xs ys ds : list R) :
  length dt = length df -> length xs = length df -> length ys = length df ->
  length ds = length df ->
  map (fun o => (o_X o, o_Y o, o_lapdist o)) (assemble df dt xs ys ds)
  = combine (combine xs ys) ds.
Proof.
  revert dt xs ys ds.
  induction df as [|r df IH]; intros [|t dt] [|x xs] [|y ys] [|d ds]; simpl;
    intros; try reflexivity; try discriminate.
  rewrite IH by congruence. reflexivity.
Qed.

Lemma cumsum_first_zero (a t l : list R) (x : R) :
  cumsum (zipw Rmult a (0 :: t)) = x :: l -> x = 0.
Proof.
  destruct a as [|a0 a]; unfold zipw; simpl; [discriminate|].
  intro H. injection H as <- _. apply Rmult_0_r.
Qed.

Lemma dt_col_cons (r : Wide) (df : list Wide) :
  exists t, dt_col (r :: df) = 0 :: t.
Proof. eexists. reflexivity. Qed.

Lemma assemble_head (df : list Wide) (dt xs ys ds : list R) (o : Out) :
  hd_error (assemble df dt xs ys ds) = Some o ->
  exists r df' dt' xs' ys' ds', df = r :: df' /\ dt = o_dt o :: dt'
    /\ xs = o_X o :: xs' /\ ys = o_Y o :: ys' /\ ds = o_lapdist o :: ds'.
Proof.
  destruct df as [|r df], dt as [|t dt], xs as [|x xs], ys as [|y ys], ds as [|d ds];
    simpl; try discriminate.
  intro H. injection H as <-. simpl. do 6 eexists. repeat split.
Qed.

(** [C5] The track reconstructor, on the normalised table: the yaw rate is
    [(speed_ms / 2.57) * tan (radians (steering * 450 / 13.5))]; the heading,
    the position [(X, Y)] and the lap distance are the components of the
    running sums of [yaw * dt], [speed * cos heading * dt],
    [speed * sin heading * dt] and [speed * dt] started at zero; [dt] is the
    timestamp difference with [0] for the first sample, so the first row has
    [dt], heading, [X], [Y] and distance all zero. *)
Theorem dead_reckoning (wide : list Wide) :
  yaw_rate_col (normalize_signals wide)
    = zipw spec_yaw (map Steering_Angle (normalize_signals wide))
           (speed_ms_col (normalize_signals wide))
  /\ dt_col (normalize_signals wide) = time_deltas (map timestamp wide)
  /\ heading_col (normalize_signals wide)
     = map dr_heading (dr_scan (mkDR 0 0 0 0) (spec_inputs (normalize_signals wide)))
  /\ map (fun o => (o_X o, o_Y o, o_lapdist o)) (process_wide wide)
     = map (fun st => (dr_x st, dr_y st, dr_dist st))
           (dr_scan (mkDR 0 0 0 0) (spec_inputs (normalize_signals wide)))
  /\ (forall h, hd_error (heading_col (normalize_signals wide)) = Some h -> h = 0)
  /\ (forall o, hd_error (process_wide wide) = Some o ->
        o_dt o = 0 /\ o_X o = 0 /\ o_Y o = 0 /\ o_lapdist o = 0).
Proof.
  pose proof (timestamp_kept wide) as Ets.
  set (df := normalize_signals wide) in *.
  destruct (spec_inputs_cols df) as [Cd [Cy Cv]].
  destruct (scan_cols (mkDR 0 0 0 0) (spec_inputs df)) as [S1 [S2 [S3 S4]]].
  cbn [dr_heading dr_x dr_y dr_dist] in S1, S2, S3, S4.
  rewrite Cy in S1, S2, S3. rewrite Cv in S2, S3, S4. rewrite Cd in S1, S2, S3, S4.
  assert (Hh : heading_col df = map dr_heading (dr_scan (mkDR 0 0 0 0) (spec_inputs df))).
  { rewrite S1. unfold heading_col. apply cumsum_from_zero. }
  split; [apply yaw_rate_spec|]. split; [unfold dt_col; rewrite Ets; reflexivity|].
  split; [exact Hh|]. split.
  - rewrite <- S1, <- Hh in S2, S3. rewrite (map_triple dr_x dr_y dr_dist), S2, S3, S4.
    unfold process_wide. fold df.
    unfold X_col, Y_col, lapdist_col. rewrite !cumsum_from_zero.
    apply assemble_cols.
    + apply length_dt_col.
    + rewrite length_cumsum_from, !length_zipw, length_speed_ms_col, length_dt_col.
      unfold heading_col. rewrite length_cumsum, length_zipw, length_dt_col.
      unfold yaw_rate_col, wheel_angle_col.
      rewrite length_zipw, length_speed_ms_col, !length_map. rewrite !Nat.min_id. reflexivity.
    + rewrite length_cumsum_from, !length_zipw, length_speed_ms_col, length_dt_col.
      unfold heading_col. rewrite length_cumsum, length_zipw, length_dt_col.
      unfold yaw_rate_col, wheel_angle_col.
      rewrite length_zipw, length_speed_ms_col, !length_map. rewrite !Nat.min_id. reflexivity.
    + rewrite length_cumsum_from, length_zipw, length_speed_ms_col, length_dt_col.
      apply Nat.min_id.
  - split.
    + intros h Hd. unfold heading_col in Hd.
      destruct df as [|r df'] eqn:Edf; [cbn in Hd; discriminate|].
      destruct (dt_col_cons r df') as [t Et]. rewrite Et in Hd.
      destruct (cumsum (zipw Rmult (yaw_rate_col (r :: df')) (0 :: t))) as [|x l] eqn:Ec;
        [discriminate|].
      injection Hd as <-. exact (cumsum_first_zero _ _ _ _ Ec).
    + intros o Ho. unfold process_wide in Ho. fold df in Ho.
      destruct (assemble_head _ _ _ _ _ _ Ho)
        as [r [df' [dt' [xs' [ys' [ds' [Edf [Edt [Ex [Ey Ed]]]]]]]]]].
      rewrite Edf in Edt, Ex, Ey, Ed.
      destruct (dt_col_cons r df') as [t Et].
      assert (E0 : o_dt o = 0) by (rewrite Et in Edt; injection Edt as <- _; reflexivity).
      unfold X_col, Y_col, lapdist_col in *. rewrite Et in Ex, Ey, Ed.
      split; [exact E0|]. split; [|split].
      * exact (cumsum_first_zero _ _ _ _ Ex).
      * exact (cumsum_first_zero _ _ _ _ Ey).
      * exact (cumsum_first_zero _ _ _ _ Ed).
Qed.

End ProcessorFacts.

(** ** Further facts about [cli_model.py] *)
Module CliModelExtraFacts.
Import CliModel.
Local Open Scope Q_scope.
Local Open Scope string_scope.
Local Open Scope list_scope.

Lemma fold_qmin_bound (t : list Q) (a : Q) :
  fold_left qmin t a <= a /\ forall y, In y t -> fold_left qmin t a <= y.
Proof.
  revert a. induction t as [|x t IH]; intro a; simpl.
  - split; [apply Qle_refl|intros _ []].
  - destruct (IH (qmin a x)) as [H1 H2].
    assert (Ha : qmin a x <= a /\ qmin a x <= x).
    { unfold qmin. destruct (Qle_bool a x) eqn:E.
      - apply Qle_bool_iff in E. split; [apply Qle_refl|exact E].
      - split; [|apply Qle_refl]. apply Qlt_le_weak, Qnot_le_lt.
        intro H. apply Qle_bool_iff in H. congruence. }
    split; [eapply Qle_trans; [exact H1|apply Ha]|].
    intros y [<-|Hy]; [eapply Qle_trans; [exact H1|apply Ha]|apply H2, Hy].
Qed.

Lemma fold_qmax_bound (t : list Q) (a : Q) :
  a <= fold_left qmax t a /\ forall y, In y t -> y <= fold_left qmax t a.
Proof.
  revert a. induction t as [|x t IH]; intro a; simpl.
  - split; [apply Qle_refl|intros _ []].
  - destruct (IH (qmax a x)) as [H1 H2].
    assert (Ha : a <= qmax a x /\ x <= qmax a x).
    { unfold qmax. destruct (Qle_bool a x) eqn:E.
      - apply Qle_bool_iff in E. split; [exact E|apply Qle_refl].
      - split; [apply Qle_refl|]. apply Qlt_le_weak, Qnot_le_lt.
        intro H. apply Qle_bool_iff in H. congruence. }
    split; [eapply Qle_trans; [apply Ha|exact H1]|].
    intros y [<-|Hy]; [eapply Qle_trans; [apply Ha|exact H1]|apply H2, Hy].
Qed.

Lemma series_min_le (s : list Q) (mn : Q) :
  series_min s = Some mn -> (forall x, In x s -> mn <= x) /\ In mn s.
Proof.
  destruct s as [|x t]; simpl; [discriminate|]. intro E. injection E as <-.
  destruct (fold_qmin_bound t x) as [H1 H2]. split.
  - intros y [<-|Hy]; [exact H1|apply H2, Hy].
  - destruct (CliModelFacts.fold_pick qmin CliModelFacts.qmin_pick t x) as [E|E];
      [left; symmetry; exact E|right; exact E].
Qed.

Lemma series_max_ge (s : list Q) (mx : Q) :
  series_max s = Some mx -> (forall x, In x s -> x <= mx) /\ In mx s.
Proof.
  destruct s as [|x t]; simpl; [discriminate|]. intro E. injection E as <-.
  destruct (fold_qmax_bound t x) as [H1 H2]. split.
  - intros y [<-|Hy]; [exact H1|apply H2, Hy].
  - destruct (CliModelFacts.fold_pick qmax CliModelFacts.qmax_pick t x) as [E|E];
      [left; symmetry; exact E|right; exact E].
Qed.

Lemma normalize_len_range (s : list Q) :
  length (normalize_series s) = length s
  /\ (forall y, In y (normalize_series s) -> 0 <= y <= 1).
Proof.
  destruct s as [|x0 t] eqn:Es; [split; [reflexivity|intros _ []]|].
  rewrite <- Es.
  assert (Hmn : series_min s = Some (fold_left qmin t x0)) by (subst; reflexivity).
  assert (Hmx : series_max s = Some (fold_left qmax t x0)) by (subst; reflexivity).
  set (mn := fold_left qmin t x0) in *. set (mx := fold_left qmax t x0) in *.
  destruct (series_min_le s mn Hmn) as [Lmn Imn].
  destruct (series_max_ge s mx Hmx) as [Lmx Imx].
  unfold normalize_series. rewrite Hmn, Hmx.
  split; [destruct (Qeq_bool _ _); apply length_map|].
  destruct (Qeq_bool (mx - mn) 0) eqn:Ez.
  - intros y Hy. apply in_map_iff in Hy as [z [<- _]]. rewrite Qmult_0_r. lra.
  - assert (Hd : 0 < mx - mn).
    { assert (mn <= mx) by (apply Qle_trans with x0; [apply Lmn|apply Lmx];
        subst s; left; reflexivity).
      destruct (Qlt_le_dec 0 (mx - mn)) as [Hlt|Hle]; [exact Hlt|].
      exfalso. assert (E : mx - mn == 0) by lra. apply Qeq_bool_iff in E. congruence. }
    intros y Hy. apply in_map_iff in Hy as [z [<- Hz]].
    pose proof (Lmn z Hz). pose proof (Lmx z Hz). split.
    + apply Qle_shift_div_l; [exact Hd|]. lra.
    + apply Qle_shift_div_r; [exact Hd|]. lra.
Qed.

(** [X1] Min-max normalisation keeps the length of the series and puts every
    value in [[0, 1]]; when the series is not constant its minimum maps to 0
    and its maximum to 1. *)
Theorem normalize_series_range (s : list Q) :
  length (normalize_series s) = length s
  /\ (forall y, In y (normalize_series s) -> 0 <= y <= 1)
  /\ (forall mn mx, series_min s = Some mn -> series_max s = Some mx -> ~ mx == mn ->
        (exists y, In y (normalize_series s) /\ y == 0)
        /\ (exists y, In y (normalize_series s) /\ y == 1)).
Proof.
  destruct (normalize_len_range s) as [Hl Hr]. split; [exact Hl|]. split; [exact Hr|].
  intros mn mx Hmn Hmx Hne.
  destruct (series_min_le s mn Hmn) as [_ Imn].
  destruct (series_max_ge s mx Hmx) as [_ Imx].
  unfold normalize_series. rewrite Hmn, Hmx.
  destruct (Qeq_bool (mx - mn) 0) eqn:Ez.
  { apply Qeq_bool_iff in Ez. exfalso. apply Hne. lra. }
  split.
  - exists ((mn - mn) / (mx - mn)). split; [apply in_map_iff; exists mn; auto|].
    field. intro E. apply Hne. lra.
  - exists ((mx - mn) / (mx - mn)). split; [apply in_map_iff; exists mx; auto|].
    field. intro E. apply Hne. lra.
Qed.

Lemma rolling_nth (s : list Q) (i : nat) :
  (i < length s)%nat -> nth i (rolling_mean3 s) 0 = mean (window_at s i).
Proof.
  intro Hi. unfold rolling_mean3.
  rewrite nth_indep with (d' := mean (window_at s 0))
    by (rewrite length_map, length_seq; exact Hi).
  rewrite (map_nth (fun j => mean (window_at s j))), seq_nth by exact Hi. reflexivity.
Qed.

Lemma length_rolling (s : list Q) : length (rolling_mean3 s) = length s.
Proof. unfold rolling_mean3. rewrite length_map, length_seq. reflexivity. Qed.

Lemma nth_error_in (s : list Q) (j : nat) :
  (j < length s)%nat -> nth_error s j = Some (nth j s 0).
Proof. apply nth_error_nth'. Qed.

(** [X2] The centered rolling mean of [compute_cli] ([window=3, center=True,
    min_periods=1]) keeps the length; an interior value is the mean of itself
    and its two neighbours, the two end values are the mean of two values, and
    a one-value series is unchanged. *)
Theorem rolling_mean3_values (s : list Q) :
  let n := length s in
  let v k := nth k s 0 in
  let r k := nth k (rolling_mean3 s) 0 in
  length (rolling_mean3 s) = n
  /\ (n = 1%nat -> r 0%nat == v 0%nat)
  /\ ((2 <= n)%nat -> r 0%nat == (v 0%nat + v 1%nat) / 2
                     /\ r (n - 1)%nat == (v (n - 2)%nat + v (n - 1)%nat) / 2)
  /\ (forall i, (0 < i)%nat -> (i < n - 1)%nat ->
        r i == (v (i - 1)%nat + v i + v (S i)) / 3).
Proof.
  intros n v r. subst n v r. split; [apply length_rolling|]. split; [|split].
  - intro H1. rewrite rolling_nth by lia. unfold window_at.
    rewrite nth_error_in by lia. rewrite (proj2 (nth_error_None s 1%nat)) by lia.
    unfold mean. simpl. field.
  - intro H2. split.
    + rewrite rolling_nth by lia. unfold window_at.
      rewrite !nth_error_in by lia. unfold mean. simpl. field.
    + rewrite rolling_nth by lia. unfold window_at.
      destruct (length s) as [|m] eqn:El; [lia|].
      replace (S m - 1)%nat with m by lia. destruct m as [|m]; [lia|].
      replace (S (S m) - 2)%nat with m by lia.
      rewrite !nth_error_in by lia. rewrite (proj2 (nth_error_None s (S (S m)))) by lia.
      unfold mean. simpl. field.
  - intros i H0 H1. rewrite rolling_nth by lia. unfold window_at.
    destruct i as [|j]; [lia|]. rewrite !nth_error_in by lia.
    replace (S j - 1)%nat with j by lia. unfold mean. simpl. field.
Qed.

Lemma sum_bounds (w : list Q) (lo hi : Q) :
  (forall x, In x w -> lo <= x <= hi) ->
  lo * inject_Z (Z.of_nat (length w)) <= fold_right Qplus 0 w
  /\ fold_right Qplus 0 w <= hi * inject_Z (Z.of_nat (length w)).
Proof.
  induction w as [|x w IH]; intro H; simpl.
  - split; [rewrite Qmult_0_r; apply Qle_refl|rewrite Qmult_0_r; apply Qle_refl].
  - destruct IH as [H1 H2]; [intros y Hy; apply H; right; exact Hy|].
    destruct (H x (or_introl eq_refl)) as [Hx1 Hx2].
    rewrite Zpos_P_of_succ_nat, <- Z.add_1_r, inject_Z_plus. simpl inject_Z.
    rewrite !Qmult_plus_distr_r, !Qmult_1_r. split; lra.
Qed.

Lemma mean_bounds (w : list Q) (lo hi : Q) :
  w <> [] -> (forall x, In x w -> lo <= x <= hi) -> lo <= mean w <= hi.
Proof.
  intros Hne H. destruct (sum_bounds w lo hi H) as [H1 H2].
  assert (Hp : 0 < inject_Z (Z.of_nat (length w))).
  { change 0 with (inject_Z 0). rewrite <- Zlt_Qlt.
    destruct w; [congruence|simpl; lia]. }
  unfold mean. split; [apply Qle_shift_div_l|apply Qle_shift_div_r]; auto.
Qed.

Lemma opt_list_in (s : list Q) (j : nat) (x : Q) : In x (opt_list (nth_error s j)) -> In x s.
Proof.
  destruct (nth_error s j) eqn:E; simpl; [|intros []].
  intros [<-|[]]. eapply nth_error_In. exact E.
Qed.

Lemma rolling_bounds_aux (s : list Q) (lo hi : Q)
  (Hs : forall x, In x s -> lo <= x <= hi) :
  forall y, In y (rolling_mean3 s) -> lo <= y <= hi.
Proof.
  intros y Hy. unfold rolling_mean3 in Hy. apply in_map_iff in Hy as [i [<- Hi]].
  apply in_seq in Hi. apply mean_bounds.
  - unfold window_at. rewrite (nth_error_in s i) by lia.
    destruct i; simpl; [discriminate|]. destruct (opt_list _); discriminate.
  - intros x Hx. apply Hs. unfold window_at in Hx.
    destruct i as [|j]; cbv beta iota in Hx;
      repeat (apply in_app_or in Hx as [Hx|Hx]);
      first [exact (False_ind _ Hx) | eapply opt_list_in; exact Hx].
Qed.

(** [X3] The rolling mean never leaves the range of the series: if every
    value lies in [[lo, hi]], so does every smoothed value. *)
Theorem rolling_mean3_bounds (s : list Q) (lo hi : Q)
  (Hs : forall x, In x s -> lo <= x <= hi) :
  forall y, In y (rolling_mean3 s) -> lo <= y <= hi.
Proof. exact (rolling_bounds_aux s lo hi Hs). Qed.

Lemma rolling_mean3_bounds_witness :
  (forall x, In x [0; 1; 1#2] -> 0 <= x <= 1)
  /\ forall y, In y (rolling_mean3 [0; 1; 1#2]) -> 0 <= y <= 1.
Proof.
  assert (H : forall x, In x [0; 1; 1#2] -> 0 <= x <= 1).
  { intros x [<-|[<-|[<-|[]]]]; split; vm_compute; discriminate. }
  split; [exact H|]. exact (rolling_mean3_bounds [0; 1; 1#2] 0 1 H).
Defined.

Lemma get_set_same (f : Frame) (c : string) (v : list Q) :
  get_col (set_col f c v) c = Some v.
Proof.
  induction f as [|[c' v'] t IH]; simpl; [rewrite String.eqb_refl; reflexivity|].
  destruct (String.eqb c c') eqn:E; simpl; [rewrite String.eqb_refl; reflexivity|].
  rewrite E. exact IH.
Qed.

Lemma upd_upd (h : heap) (d : loc) (f g : Frame) : upd (upd h d f) d g = upd h d g.
Proof.
  revert d. induction h as [|x t IH]; intro d; destruct d; simpl; auto. rewrite IH. reflexivity.
Qed.

Ltac cli_rw :=
  repeat first
    [ rewrite CliModelFacts.nth_error_upd_same
        by (rewrite ?CliModelFacts.length_upd, length_app; simpl; lia)
    | rewrite get_set_same
    | rewrite CliModelFacts.get_set_other by discriminate
    | rewrite upd_upd ].

Lemma compute_cli_eq (h : heap) (l : loc) (f : Frame) :
  nth_error h l = Some f ->
  compute_cli h l =
  match get_col f "steering_entropy", get_col f "throttle_jerk",
        get_col f "brake_panic", get_col f "lat_instability" with
  | Some a, Some b, Some c, Some d =>
      let g := set_col (set_col (set_col (set_col f "norm_steering" (normalize_series a))
                 "norm_throttle" (normalize_series b)) "norm_brake" (normalize_series c))
                 "norm_lat" (normalize_series d) in
      let g' := set_col (set_col g "CLI" (cli_of a b c d)) "CLI_smooth"
                  (rolling_mean3 (cli_of a b c d)) in
      Some (upd (h ++ [f]) (length h) g', length h)
  | _, _, _, _ => None
  end.
Proof.
  intro Hf. unfold compute_cli. rewrite Hf. cbv zeta.
  assert (E0 : nth_error (h ++ [f]) (length h) = Some f).
  { rewrite nth_error_app2 by lia. rewrite Nat.sub_diag. reflexivity. }
  unfold setitem. rewrite E0. unfold normalized at 1.
  destruct (get_col f "steering_entropy") as [a|] eqn:Ea; [|reflexivity]. simpl.
  cli_rw. unfold normalized. cli_rw.
  destruct (get_col f "throttle_jerk") as [b|] eqn:Eb; [|reflexivity]. simpl.
  cli_rw.
  destruct (get_col f "brake_panic") as [c|] eqn:Ec; [|reflexivity]. simpl.
  cli_rw.
  destruct (get_col f "lat_instability") as [d|] eqn:Ed; [|reflexivity]. simpl.
  cli_rw. unfold cli_formula. cli_rw. simpl. cli_rw. reflexivity.
Qed.

Lemma vscale_bounds (w a b : Q) (s : list Q) :
  0 <= w -> (forall x, In x s -> a <= x <= b) ->
  forall y, In y (vscale w s) -> w * a <= y <= w * b.
Proof.
  intros Hw H y Hy. unfold vscale in Hy. apply in_map_iff in Hy as [x [<- Hx]].
  destruct (H x Hx). rewrite !(Qmult_comm w). split; apply Qmult_le_compat_r; auto.
Qed.

Lemma vadd_bounds (s1 s2 : list Q) (a1 b1 a2 b2 : Q) :
  (forall x, In x s1 -> a1 <= x <= b1) -> (forall x, In x s2 -> a2 <= x <= b2) ->
  forall y, In y (vadd s1 s2) -> a1 + a2 <= y <= b1 + b2.
Proof.
  intros H1 H2 y Hy. unfold vadd in Hy. apply in_map_iff in Hy as [[x1 x2] [<- Hx]].
  simpl. destruct (H1 x1 (in_combine_l _ _ _ _ Hx)).
  destruct (H2 x2 (in_combine_r _ _ _ _ Hx)). lra.
Qed.

Lemma cli_of_range (a b c d : list Q) : forall y, In y (cli_of a b c d) -> 0 <= y <= 1.
Proof.
  intros y Hy.
  pose proof (fun w (Hw : 0 <= w) s => vscale_bounds w 0 1 (normalize_series s) Hw
                (proj2 (normalize_len_range s))) as Hs.
  unfold cli_of in Hy.
  pose proof (vadd_bounds _ _ _ _ _ _
    (vadd_bounds _ _ _ _ _ _
      (vadd_bounds _ _ _ _ _ _ (Hs w_steering ltac:(unfold w_steering; lra) a)
                               (Hs w_throttle ltac:(unfold w_throttle; lra) b))
      (Hs w_brake ltac:(unfold w_brake; lra) c))
    (Hs w_lat ltac:(unfold w_lat; lra) d) y Hy) as B.
  unfold w_steering, w_throttle, w_brake, w_lat in B. lra.
Qed.

Lemma length_vadd (s1 s2 : list Q) : length (vadd s1 s2) = Nat.min (length s1) (length s2).
Proof. unfold vadd. rewrite length_map, length_combine. reflexivity. Qed.

Lemma length_cli_of (a b c d : list Q) (n : nat) :
  length a = n -> length b = n -> length c = n -> length d = n -> length (cli_of a b c d) = n.
Proof.
  intros. unfold cli_of, vscale. rewrite !length_vadd, !length_map.
  rewrite !(proj1 (normalize_len_range _)). lia.
Qed.

(** [X4] On success, the table [compute_cli] returns has a [CLI] column with
    every value in [[0, 1]] (the four normalised metrics weighted 0.4, 0.3, 0.2
    and 0.1), one value per row when the four metric columns have [n] rows, and
    a [CLI_smooth] column that is its rolling mean, of the same length and also
    in [[0, 1]]. *)
Theorem compute_cli_cli_range (h : heap) (l : loc) (h' : heap) (l' : loc)
  (Hrun : compute_cli h l = Some (h', l')) :
  exists f' cli, nth_error h' l' = Some f'
    /\ get_col f' "CLI" = Some cli
    /\ get_col f' "CLI_smooth" = Some (rolling_mean3 cli)
    /\ (forall y, In y cli -> 0 <= y <= 1)
    /\ (forall y, In y (rolling_mean3 cli) -> 0 <= y <= 1)
    /\ length (rolling_mean3 cli) = length cli
    /\ (forall f n, nth_error h l = Some f ->
          (forall c v, In c ["steering_entropy"; "throttle_jerk"; "brake_panic";
                             "lat_instability"] -> get_col f c = Some v -> length v = n) ->
          length cli = n).
Proof.
  destruct (nth_error h l) as [f|] eqn:Hf;
    [|unfold compute_cli in Hrun; rewrite Hf in Hrun; discriminate].
  rewrite (compute_cli_eq h l f Hf) in Hrun.
  destruct (get_col f "steering_entropy") as [a|] eqn:Ea; [|discriminate].
  destruct (get_col f "throttle_jerk") as [b|] eqn:Eb; [|discriminate].
  destruct (get_col f "brake_panic") as [c|] eqn:Ec; [|discriminate].
  destruct (get_col f "lat_instability") as [d|] eqn:Ed; [|discriminate].
  cbv zeta in Hrun. injection Hrun as <- <-.
  eexists. exists (cli_of a b c d). split.
  { apply CliModelFacts.nth_error_upd_same. rewrite length_app. simpl. lia. }
  split; [rewrite CliModelFacts.get_set_other by discriminate; apply get_set_same|].
  split; [apply get_set_same|]. split; [apply cli_of_range|].
  split; [apply rolling_bounds_aux, cli_of_range|]. split; [apply length_rolling|].
  intros f0 n Hf0 Hn. injection Hf0 as <-.
  apply length_cli_of; eapply Hn; eauto; simpl; tauto.
Qed.

Lemma compute_cli_cli_range_witness :
  exists h' l', compute_cli [sample_metrics] 0%nat = Some (h', l')
    /\ exists f' cli, nth_error h' l' = Some f'
    /\ get_col f' "CLI" = Some cli
    /\ get_col f' "CLI_smooth" = Some (rolling_mean3 cli)
    /\ (forall y, In y cli -> 0 <= y <= 1)
    /\ (forall y, In y (rolling_mean3 cli) -> 0 <= y <= 1)
    /\ length (rolling_mean3 cli) = length cli
    /\ (forall f n, nth_error [sample_metrics] 0%nat = Some f ->
          (forall c v, In c ["steering_entropy"; "throttle_jerk"; "brake_panic";
                             "lat_instability"] -> get_col f c = Some v -> length v = n) ->
          length cli = n).
Proof.
  assert (Hok : match compute_cli [sample_metrics] 0%nat with Some _ => true | None => false end
                = true) by (vm_compute; reflexivity).
  destruct (compute_cli [sample_metrics] 0%nat) as [[h' l']|] eqn:E; [|discriminate].
  exists h', l'. split; [reflexivity|].
  exact (compute_cli_cli_range [sample_metrics] 0%nat h' l' E).
Defined.

(** [X5] [compute_cli] fails (the [KeyError] of [df[...]]) exactly when its
    input lacks one of the four metric columns it normalises. *)
Theorem compute_cli_missing_column (h : heap) (l : loc) (f : Frame)
  (Hf : nth_error h l = Some f) :
  compute_cli h l = None
  <-> exists c, In c ["steering_entropy"; "throttle_jerk"; "brake_panic"; "lat_instability"]
                /\ get_col f c = None.
Proof.
  rewrite (compute_cli_eq h l f Hf).
  destruct (get_col f "steering_entropy") as [a|] eqn:Ea;
  [destruct (get_col f "throttle_jerk") as [b|] eqn:Eb;
   [destruct (get_col f "brake_panic") as [c|] eqn:Ec;
    [destruct (get_col f "lat_instability") as [d|] eqn:Ed|]|]|].
  - split; [discriminate|]. intros [c0 [Hc0 E]].
    simpl in Hc0. repeat destruct Hc0 as [<-|Hc0]; try congruence. destruct Hc0.
  - split; [intros _; exists "lat_instability"; simpl; tauto|reflexivity].
  - split; [intros _; exists "brake_panic"; simpl; tauto|reflexivity].
  - split; [intros _; exists "throttle_jerk"; simpl; tauto|reflexivity].
  - split; [intros _; exists "steering_entropy"; simpl; tauto|reflexivity].
Qed.

Lemma compute_cli_missing_column_witness :
  nth_error [[("segment_id", [0]); ("steering_entropy", [1])]] 0%nat
    = Some [("segment_id", [0]); ("steering_entropy", [1])]
  /\ (compute_cli [[("segment_id", [0]); ("steering_entropy", [1])]] 0%nat = None
      <-> exists c, In c ["steering_entropy"; "throttle_jerk"; "brake_panic"; "lat_instability"]
                    /\ get_col [("segment_id", [0]); ("steering_entropy", [1])] c = None).
Proof.
  split; [reflexivity|].
  exact (compute_cli_missing_column [[("segment_id", [0]); ("steering_entropy", [1])]] 0%nat
           [("segment_id", [0]); ("steering_entropy", [1])] eq_refl).
Defined.

End CliModelExtraFacts.

(** ** Facts about the per-segment metrics of [compute_metrics.py] *)
Module MetricsFacts.
Import Metrics.
Local Open Scope Q_scope.
Local Open Scope list_scope.

Lemma length_qdiffs (x : Q) (t : list Q) : length (qdiffs x t) = length t.
Proof. revert x. induction t; intro; simpl; auto. Qed.

Lemma qdiffs_zero (x : Q) (t : list Q) :
  (forall d, In d (qdiffs x t) -> d == 0) <-> (forall y, In y t -> y == x).
Proof.
  revert x. induction t as [|y t IH]; intro x; simpl; [split; intros _ _ []|].
  split.
  - intros H. assert (Hy : y == x) by (pose proof (H (y - x) (or_introl eq_refl)); lra).
    intros z [<-|Hz]; [exact Hy|].
    assert (Hz' : z == y) by (apply (proj1 (IH y)); [intros d Hd; apply H; right; exact Hd|exact Hz]).
    rewrite Hz'. exact Hy.
  - intros H d [<-|Hd].
    + pose proof (H y (or_introl eq_refl)). lra.
    + revert d Hd. apply (proj2 (IH y)). intros z Hz.
      pose proof (H z (or_intror Hz)). pose proof (H y (or_introl eq_refl)). lra.
Qed.

Lemma sum_abs_nonneg (l : list Q) : 0 <= fold_right Qplus 0 (map Qabs l).
Proof.
  induction l as [|d l IH]; simpl; [apply Qle_refl|]. pose proof (Qabs_nonneg d). lra.
Qed.

Lemma sum_abs_zero (l : list Q) :
  fold_right Qplus 0 (map Qabs l) == 0 <-> forall d, In d l -> d == 0.
Proof.
  induction l as [|d l IH]; simpl; [split; [intros _ _ []|reflexivity]|].
  pose proof (Qabs_nonneg d). pose proof (sum_abs_nonneg l). split.
  - intros Hs. assert (Hd : Qabs d <= 0) by lra.
    apply Qabs_Qle_condition in Hd.
    intros e [<-|He]; [lra|]. apply (proj1 IH); [lra|exact He].
  - intros Hs. assert (Hd : d == 0) by (apply Hs; left; reflexivity).
    rewrite (proj2 IH) by (intros e He; apply Hs; right; exact He).
    rewrite Hd. reflexivity.
Qed.

Lemma pos_count (n : nat) : 0 < inject_Z (Z.of_nat (S n)).
Proof. change 0 with (inject_Z 0). rewrite <- Zlt_Qlt. lia. Qed.

(** [X6] The mean absolute first difference ([throttle_jerk] on the throttle,
    [long_jerk] on [accx]) of a segment's [n] samples is NaN for no sample;
    otherwise it is the sum of the [n - 1] absolute steps divided by [n] (the
    filled-in first difference 0 counts in the mean), it is non-negative, and it
    is 0 exactly when the signal is constant over the segment. *)
Theorem abs_diff_mean_props :
  abs_diff_mean [] = None
  /\ forall (x : Q) (t : list Q), exists v, abs_diff_mean (x :: t) = Some v
       /\ v * inject_Z (Z.of_nat (S (length t))) == fold_right Qplus 0 (map Qabs (qdiffs x t))
       /\ 0 <= v
       /\ (v == 0 <-> forall y, In y t -> y == x).
Proof.
  split; [reflexivity|]. intros x t.
  set (S0 := fold_right Qplus 0 (map Qabs (qdiffs x t))).
  set (N := inject_Z (Z.of_nat (S (length t)))).
  assert (HN : 0 < N) by apply pos_count.
  exists ((0 + S0) / N). split.
  { unfold abs_diff_mean, diff_fill0, smean. simpl map.
    rewrite length_cons, length_map, length_qdiffs. reflexivity. }
  pose proof (sum_abs_nonneg (qdiffs x t)) as H0. fold S0 in H0.
  split; [field; lra|]. split.
  - apply Qle_shift_div_l; [exact HN|]. lra.
  - rewrite <- qdiffs_zero, <- sum_abs_zero. fold S0. split.
    + intro E. assert (E' : (0 + S0) / N * N == 0 * N) by (rewrite E; reflexivity).
      field_simplify in E'; [lra|lra].
    + intro E. rewrite E. field. lra.
Qed.

Lemma Qlt_bool_iff_m (a b : Q) : Qlt_bool a b = true <-> a < b.
Proof.
  unfold Qlt_bool. rewrite negb_true_iff. split; intro H.
  - apply Qnot_le_lt. intro H'. apply Qle_bool_iff in H'. congruence.
  - destruct (Qle_bool b a) eqn:E; [|reflexivity].
    apply Qle_bool_iff in E. exfalso. apply (Qlt_irrefl a). eapply Qlt_le_trans; eauto.
Qed.

Lemma sum_pos (l : list Q) : l <> [] -> (forall d, In d l -> 0 < d) -> 0 < fold_right Qplus 0 l.
Proof.
  induction l as [|d l IH]; intros Hne H; [congruence|]. simpl.
  pose proof (H d (or_introl eq_refl)).
  destruct l as [|e l'].
  - simpl. lra.
  - assert (0 < fold_right Qplus 0 (e :: l')) by
      (apply IH; [discriminate|intros z Hz; apply H; right; exact Hz]). lra.
Qed.

(** [X7] [brake_panic] of a segment is the mean of the positive consecutive
    differences of the brake pressure; it is 0 (not NaN) for a segment whose
    brake pressure never increases, a one-sample segment included. It is
    never negative, it is positive as soon as the pressure increases once, and
    it never exceeds the largest increase. *)
Theorem brake_panic_props (x : Q) (t : list Q) :
  exists v, brake_panic (x :: t) = Some v
    /\ 0 <= v
    /\ ((forall d, In d (qdiffs x t) -> d <= 0) -> v = 0)
    /\ ((exists d, In d (qdiffs x t) /\ 0 < d) -> 0 < v)
    /\ (forall u, (forall d, In d (qdiffs x t) -> d <= u) -> v <= Qmax 0 u).
Proof.
  unfold brake_panic, diff_fill0. simpl filter.
  set (pos := filter (fun y => Qlt_bool 0 y) (qdiffs x t)).
  assert (Hpos : forall d, In d pos <-> In d (qdiffs x t) /\ 0 < d).
  { intro d. unfold pos. rewrite filter_In, Qlt_bool_iff_m. tauto. }
  destruct pos as [|p ps] eqn:Ep.
  - exists 0. split; [reflexivity|]. split; [apply Qle_refl|]. split; [reflexivity|]. split.
    + intros [d Hd]. apply Hpos in Hd. destruct Hd.
    + intros u _. apply Q.le_max_l.
  - rewrite <- Ep. unfold smean. rewrite Ep.
    set (N := inject_Z (Z.of_nat (length (p :: ps)))).
    assert (HN : 0 < N) by apply pos_count.
    assert (Hs : 0 < fold_right Qplus 0 (p :: ps)).
    { apply sum_pos; [discriminate|]. intros d Hd. apply Hpos in Hd. apply Hd. }
    assert (Hv : 0 < fold_right Qplus 0 (p :: ps) / N).
    { apply Qlt_shift_div_l; [exact HN|]. lra. }
    eexists. split; [reflexivity|]. split; [lra|]. split; [|split; [intros _; exact Hv|]].
    + intros Hle. exfalso. destruct (proj1 (Hpos p) (or_introl eq_refl)) as [Hp Hp0].
      pose proof (Hle p Hp). lra.
    + intros u Hu. apply Qle_trans with u; [|apply Q.le_max_r].
      apply Qle_shift_div_r; [exact HN|].
      assert (Hb : forall d, In d (p :: ps) -> 0 <= d <= u).
      { intros d Hd. destruct (proj1 (Hpos d) Hd) as [Hd1 Hd2]. pose proof (Hu d Hd1). lra. }
      exact (proj2 (CliModelExtraFacts.sum_bounds (p :: ps) 0 u Hb)).
Qed.

End MetricsFacts.

(** ** Facts about the statistics of [compute_insights] *)
Module InsightsStatsFacts.
Import InsightsStats.
Local Open Scope Q_scope.
Local Open Scope string_scope.
Local Open Scope list_scope.

Lemma qinsert_perm (x : Q) (l : list Q) : Permutation (qinsert x l) (x :: l).
Proof.
  induction l as [|y t IH]; simpl; [reflexivity|].
  destruct (Qle_bool x y); [reflexivity|].
  etransitivity; [apply perm_skip, IH|apply perm_swap].
Qed.

Lemma qsort_perm (l : list Q) : Permutation (qsort l) l.
Proof.
  induction l as [|x t IH]; simpl; [reflexivity|].
  etransitivity; [apply qinsert_perm|apply perm_skip, IH].
Qed.

Lemma qsort_nth_in (l : list Q) (k : nat) : (k < length l)%nat -> In (nth k (qsort l) 0) l.
Proof.
  intro Hk. apply (Permutation_in _ (qsort_perm l)). apply nth_In.
  rewrite (Permutation_length (qsort_perm l)). exact Hk.
Qed.

Lemma lerp_le (a b f m : Q) :
  a <= m -> b <= m -> 0 <= f -> f <= 1 -> a + f * (b - a) <= m.
Proof.
  intros Ham Hbm Hf0 Hf1.
  assert (H1 : 0 <= f * (m - b)) by (apply Qmult_le_0_compat; lra).
  assert (H2 : 0 <= (1 - f) * (m - a)) by (apply Qmult_le_0_compat; lra).
  assert (E : m - (a + f * (b - a)) == f * (m - b) + (1 - f) * (m - a)) by ring.
  lra.
Qed.

Lemma quantile_le_max (q : Q) (s : list Q) (m : Q) (thr : Q) :
  0 <= q <= 1 -> (forall x, In x s -> x <= m) -> quantile q s = Some thr -> thr <= m.
Proof.
  intros [Hq0 Hq1] Hm Hth. destruct s as [|x0 t] eqn:Es; [discriminate|].
  unfold quantile in Hth. rewrite <- Es in Hth, Hm.
  cbv zeta in Hth. injection Hth as <-.
  assert (Hn : (1 <= length s)%nat) by (subst s; simpl; lia).
  set (n := length s) in *.
  set (h := inject_Z (Z.of_nat (n - 1)) * q).
  assert (Hh0 : 0 <= h).
  { unfold h. apply Qmult_le_0_compat; [|exact Hq0].
    change 0 with (inject_Z 0). rewrite <- Zle_Qle. lia. }
  assert (Hh1 : h <= inject_Z (Z.of_nat (n - 1))).
  { unfold h. rewrite <- (Qmult_1_r (inject_Z (Z.of_nat (n - 1)))) at 2.
    apply Qmult_le_compat_nonneg; split; try exact Hq1; try exact Hq0; try apply Qle_refl.
    change 0 with (inject_Z 0). rewrite <- Zle_Qle. lia. }
  assert (Hlo0 : (0 <= Qfloor h)%Z).
  { change 0%Z with (Qfloor 0). apply Qfloor_resp_le. exact Hh0. }
  assert (Hlo1 : (Qfloor h <= Z.of_nat (n - 1))%Z).
  { rewrite Zle_Qle. eapply Qle_trans; [apply Qfloor_le|exact Hh1]. }
  assert (Ha : In (nth (Z.to_nat (Qfloor h)) (qsort s) 0) s) by (apply qsort_nth_in; lia).
  assert (Hb : In (nth (Z.to_nat (Z.min (Qfloor h + 1) (Z.of_nat (n - 1)))) (qsort s) 0) s)
    by (apply qsort_nth_in; lia).
  pose proof (Hm _ Ha) as Ham. pose proof (Hm _ Hb) as Hbm.
  assert (Hf0 : 0 <= h - inject_Z (Qfloor h)) by (pose proof (Qfloor_le h); lra).
  assert (Hf1 : h - inject_Z (Qfloor h) <= 1).
  { pose proof (Qlt_floor h) as Hl. rewrite inject_Z_plus in Hl. change (inject_Z 1) with 1 in Hl. lra. }
  exact (lerp_le _ _ _ _ Ham Hbm Hf0 Hf1).
Qed.

(** [X8] The high-load filter of [compute_insights] (CLI_smooth at or above
    its 0.8 quantile) keeps every segment of maximal CLI_smooth, so it is
    non-empty whenever there is a segment; with no segment it is empty. *)
Theorem high_load_keeps_max (segs : list SegRow) :
  (segs = [] -> high_load segs = [])
  /\ (forall r, In r segs -> (forall r', In r' segs -> sr_cli_smooth r' <= sr_cli_smooth r) ->
        In r (high_load segs))
  /\ (segs <> [] -> high_load segs <> []).
Proof.
  assert (Hkeep : forall r, In r segs ->
            (forall r', In r' segs -> sr_cli_smooth r' <= sr_cli_smooth r) ->
            In r (high_load segs)).
  { intros r Hr Hmax. unfold high_load.
    destruct (quantile (8 # 10) (map sr_cli_smooth segs)) as [thr|] eqn:Eq.
    - apply filter_In. split; [exact Hr|]. apply Qle_bool_iff.
      eapply quantile_le_max; [|intros x Hx|exact Eq].
      + split; vm_compute; discriminate.
      + apply in_map_iff in Hx as [r' [<- Hr']]. apply Hmax, Hr'.
    - destruct segs; [destruct Hr|discriminate]. }
  split; [intros ->; reflexivity|]. split; [exact Hkeep|].
  intro Hne. destruct segs as [|r0 t]; [congruence|].
  destruct (CliModelExtraFacts.series_max_ge (map sr_cli_smooth (r0 :: t))
              (fold_left CliModel.qmax (map sr_cli_smooth t) (sr_cli_smooth r0)) eq_refl)
    as [Hb Hin].
  apply in_map_iff in Hin as [r [Er Hr]].
  intro E. specialize (Hkeep r Hr). rewrite E in Hkeep.
  apply Hkeep. intros r' Hr'. rewrite Er. apply Hb, in_map, Hr'.
Qed.

Lemma str_compare_refl (s : string) : String.compare s s = Eq.
Proof.
  induction s as [|c s IH]; simpl; [reflexivity|].
  unfold Ascii.compare. rewrite N.compare_refl. exact IH.
Qed.

Lemma str_leb_refl (s : string) : String.leb s s = true.
Proof. unfold String.leb. rewrite str_compare_refl. reflexivity. Qed.

Lemma str_leb_iff (a b : string) : String.leb a b = true <-> String.compare a b <> Gt.
Proof. unfold String.leb. destruct (String.compare a b); intuition discriminate. Qed.

Lemma str_compare_trans (a b c : string) :
  String.compare a b <> Gt -> String.compare b c <> Gt -> String.compare a c <> Gt.
Proof.
  revert b c. induction a as [|x a IH]; intros [|y b] [|z c]; simpl; try congruence.
  unfold Ascii.compare.
  destruct (N.compare_spec (N_of_ascii x) (N_of_ascii y)) as [Exy|Lxy|Gxy];
  destruct (N.compare_spec (N_of_ascii y) (N_of_ascii z)) as [Eyz|Lyz|Gyz];
  intros H1 H2; try congruence.
  - rewrite Exy, Eyz, N.compare_refl. apply IH with b; assumption.
  - rewrite Exy. rewrite (proj2 (N.compare_lt_iff _ _) Lyz). discriminate.
  - rewrite <- Eyz. rewrite (proj2 (N.compare_lt_iff _ _) Lxy). discriminate.
  - rewrite (proj2 (N.compare_lt_iff (N_of_ascii x) (N_of_ascii z))) by lia. discriminate.
Qed.

Lemma str_leb_trans (a b c : string) :
  String.leb a b = true -> String.leb b c = true -> String.leb a c = true.
Proof. rewrite !str_leb_iff. apply str_compare_trans. Qed.

Lemma ssort_head (l : list string) :
  l <> [] -> exists hd rest, ssort l = hd :: rest /\ In hd l
    /\ forall y, In y l -> String.leb hd y = true.
Proof.
  induction l as [|x t IH]; intro Hne; [congruence|]. simpl.
  destruct t as [|x' t'].
  - exists x, []. split; [reflexivity|]. split; [left; reflexivity|].
    intros y [<-|[]]. apply str_leb_refl.
  - destruct (IH ltac:(discriminate)) as [hd [rest [E [Hin Hmin]]]].
    rewrite E. simpl sinsert. destruct (String.leb x hd) eqn:Exh.
    + exists x, (hd :: rest). split; [reflexivity|]. split; [left; reflexivity|].
      intros y [<-|Hy]; [apply str_leb_refl|]. eapply str_leb_trans; [exact Exh|].
      apply Hmin, Hy.
    + eexists hd, _. split; [reflexivity|]. split; [right; exact Hin|].
      intros y [<-|Hy]; [|apply Hmin, Hy].
      destruct (String.leb_total hd x) as [H|H]; [exact H|congruence].
Qed.

Lemma list_max_in (l : list nat) : l <> [] -> In (list_max l) l.
Proof.
  induction l as [|x t IH]; intro Hne; [congruence|]. simpl.
  destruct t as [|x' t'].
  - simpl. left. lia.
  - destruct (Nat.max_spec x (list_max (x' :: t'))) as [[_ E]|[_ E]]; rewrite E.
    + right. apply IH. discriminate.
    + left. reflexivity.
Qed.

Lemma mode_spec (l : list string) :
  l <> [] -> exists c rest, mode l = c :: rest /\ In c l
    /\ (forall c', (count_occ string_dec l c' <= count_occ string_dec l c)%nat)
    /\ (forall c', count_occ string_dec l c' = count_occ string_dec l c -> String.leb c c' = true).
Proof.
  intro Hne. unfold mode.
  set (u := nodup string_dec l).
  set (m := list_max (map (count_occ string_dec l) u)).
  assert (Hu : forall x, In x u <-> In x l) by (intro; apply nodup_In).
  assert (Hle : forall c', (count_occ string_dec l c' <= m)%nat).
  { intro c'. destruct (in_dec string_dec c' l) as [Hi|Hi].
    - pose proof (proj1 (list_max_le (map (count_occ string_dec l) u) m) (Nat.le_refl m)) as H.
      rewrite Forall_forall in H. apply H. apply in_map, Hu, Hi.
    - rewrite (proj1 (count_occ_not_In _ _ _) Hi). lia. }
  set (flt := filter (fun x => Nat.eqb (count_occ string_dec l x) m) u).
  assert (Hflt : forall x, In x flt <-> In x l /\ count_occ string_dec l x = m).
  { intro x. unfold flt. rewrite filter_In, Hu, Nat.eqb_eq. tauto. }
  assert (Hfne : flt <> []).
  { assert (Hm : In m (map (count_occ string_dec l) u)).
    { apply list_max_in. destruct l as [|x t]; [congruence|].
      intro E. apply map_eq_nil in E. assert (In x u) by (apply Hu; left; reflexivity).
      rewrite E in H. destruct H. }
    apply in_map_iff in Hm as [x [Ex Hx]].
    intro E. assert (In x flt) by (apply Hflt; split; [apply Hu, Hx|exact Ex]).
    rewrite E in H. destruct H. }
  destruct (ssort_head flt Hfne) as [c [rest [E [Hin Hmin]]]].
  exists c, rest. rewrite E. apply Hflt in Hin as [Hin Hc].
  split; [reflexivity|]. split; [exact Hin|]. split.
  - intro c'. rewrite Hc. apply Hle.
  - intros c' Hc'. apply Hmin. apply Hflt. split; [|congruence].
    apply (count_occ_In string_dec). rewrite Hc', Hc.
    apply (count_occ_In string_dec) in Hin. lia.
Qed.

(** [X9] With at least one segment, [common_cause] is a most frequent Primary
    Cause among the high-load segments (never ["N/A"] for lack of high-load
    segments, and never the [IndexError] of an empty mode); among equally
    frequent causes it is the one that sorts first. Without segments it is
    ["N/A"]. *)
Theorem common_cause_mode (segs : list SegRow) :
  (segs = [] -> common_cause segs = Some "N/A")
  /\ (segs <> [] ->
      let causes := map sr_cause (high_load segs) in
      exists c, common_cause segs = Some c
        /\ In c causes
        /\ (forall c', (count_occ string_dec causes c' <= count_occ string_dec causes c)%nat)
        /\ (forall c', count_occ string_dec causes c' = count_occ string_dec causes c ->
              String.leb c c' = true)).
Proof.
  split; [intros ->; reflexivity|]. intros Hne causes.
  destruct (high_load_keeps_max segs) as [_ [_ Hhl]]. specialize (Hhl Hne).
  assert (Hc : causes <> []) by (unfold causes; destruct (high_load segs); [congruence|discriminate]).
  destruct (mode_spec causes Hc) as [c [rest [E [Hin [Hmax Hmin]]]]].
  exists c. unfold common_cause. destruct (high_load segs) as [|r rs] eqn:Ehl; [congruence|].
  unfold causes in E. rewrite E. split; [reflexivity|]. auto.
Qed.

Lemma Qlt_bool_iff_s (a b : Q) : Qlt_bool a b = true <-> a < b.
Proof.
  unfold Qlt_bool. rewrite negb_true_iff. split; intro H.
  - apply Qnot_le_lt. intro H'. apply Qle_bool_iff in H'. congruence.
  - destruct (Qle_bool b a) eqn:E; [|reflexivity].
    apply Qle_bool_iff in E. exfalso. apply (Qlt_irrefl a). eapply Qlt_le_trans; eauto.
Qed.

Lemma Qlt_bool_false_s (a b : Q) : Qlt_bool a b = false -> b <= a.
Proof.
  unfold Qlt_bool. rewrite negb_false_iff. apply Qle_bool_iff.
Qed.

Lemma nth_app_l (pre : list Q) (x : Q) (j : nat) :
  (j < length pre)%nat -> nth j (pre ++ [x]) 0 = nth j pre 0.
Proof. intro Hj. apply app_nth1, Hj. Qed.

Lemma idxmax_aux_spec (l pre : list Q) (best : nat) (bv : Q) :
  (best < length pre)%nat -> nth best pre 0 = bv ->
  (forall x, In x pre -> x <= bv) -> (forall j, (j < best)%nat -> nth j pre 0 < bv) ->
  let r := idxmax_aux (length pre) best bv l in
  (r < length (pre ++ l))%nat
  /\ (forall x, In x (pre ++ l) -> x <= nth r (pre ++ l) 0)
  /\ (forall j, (j < r)%nat -> nth j (pre ++ l) 0 < nth r (pre ++ l) 0).
Proof.
  revert pre best bv. induction l as [|x t IH]; intros pre best bv Hb Hn Hle Hlt; simpl.
  - rewrite app_nil_r, Hn. split; [exact Hb|]. split; [exact Hle|exact Hlt].
  - replace (pre ++ x :: t) with ((pre ++ [x]) ++ t) by (rewrite <- app_assoc; reflexivity).
    assert (Hl : length (pre ++ [x]) = S (length pre)) by (rewrite length_app; simpl; lia).
    destruct (Qlt_bool bv x) eqn:E.
    + apply Qlt_bool_iff_s in E. rewrite <- Hl. apply IH.
      * lia.
      * rewrite app_nth2 by lia. rewrite Nat.sub_diag. reflexivity.
      * intros y Hy. apply in_app_or in Hy as [Hy|[<-|[]]]; [|apply Qle_refl].
        apply Qlt_le_weak. eapply Qle_lt_trans; [apply Hle, Hy|exact E].
      * intros j Hj. rewrite nth_app_l by exact Hj.
        eapply Qle_lt_trans; [apply Hle, nth_In, Hj|exact E].
    + apply Qlt_bool_false_s in E. rewrite <- Hl. apply IH.
      * lia.
      * rewrite nth_app_l by exact Hb. exact Hn.
      * intros y Hy. apply in_app_or in Hy as [Hy|[<-|[]]]; [apply Hle, Hy|exact E].
      * intros j Hj. rewrite nth_app_l by lia. apply Hlt, Hj.
Qed.

Lemma idxmin_aux_spec (l pre : list Q) (best : nat) (bv : Q) :
  (best < length pre)%nat -> nth best pre 0 = bv ->
  (forall x, In x pre -> bv <= x) -> (forall j, (j < best)%nat -> bv < nth j pre 0) ->
  let r := idxmin_aux (length pre) best bv l in
  (r < length (pre ++ l))%nat
  /\ (forall x, In x (pre ++ l) -> nth r (pre ++ l) 0 <= x)
  /\ (forall j, (j < r)%nat -> nth r (pre ++ l) 0 < nth j (pre ++ l) 0).
Proof.
  revert pre best bv. induction l as [|x t IH]; intros pre best bv Hb Hn Hle Hlt; simpl.
  - rewrite app_nil_r, Hn. split; [exact Hb|]. split; [exact Hle|exact Hlt].
  - replace (pre ++ x :: t) with ((pre ++ [x]) ++ t) by (rewrite <- app_assoc; reflexivity).
    assert (Hl : length (pre ++ [x]) = S (length pre)) by (rewrite length_app; simpl; lia).
    destruct (Qlt_bool x bv) eqn:E.
    + apply Qlt_bool_iff_s in E. rewrite <- Hl. apply IH.
      * lia.
      * rewrite app_nth2 by lia. rewrite Nat.sub_diag. reflexivity.
      * intros y Hy. apply in_app_or in Hy as [Hy|[<-|[]]]; [|apply Qle_refl].
        apply Qlt_le_weak. eapply Qlt_le_trans; [exact E|apply Hle, Hy].
      * intros j Hj. rewrite nth_app_l by exact Hj.
        eapply Qlt_le_trans; [exact E|apply Hle, nth_In, Hj].
    + apply Qlt_bool_false_s in E. rewrite <- Hl. apply IH.
      * lia.
      * rewrite nth_app_l by exact Hb. exact Hn.
      * intros y Hy. apply in_app_or in Hy as [Hy|[<-|[]]]; [apply Hle, Hy|exact E].
      * intros j Hj. rewrite nth_app_l by lia. apply Hlt, Hj.
Qed.

(** [X10] [idxmax] and [idxmin] (which pick [max_stress_segment] and
    [min_stress_segment]) raise on an empty column; otherwise they return a
    valid position holding the maximum (minimum) of the column, and the first
    such position: every earlier value is strictly smaller (larger). *)
Theorem idxmax_idxmin_first (l : list Q) :
  (l = [] -> idxmax l = None /\ idxmin l = None)
  /\ (l <> [] -> exists i k, idxmax l = Some i /\ idxmin l = Some k
        /\ (i < length l)%nat /\ (k < length l)%nat
        /\ (forall x, In x l -> x <= nth i l 0 /\ nth k l 0 <= x)
        /\ (forall j, (j < i)%nat -> nth j l 0 < nth i l 0)
        /\ (forall j, (j < k)%nat -> nth k l 0 < nth j l 0)).
Proof.
  split; [intros ->; split; reflexivity|]. intro Hne.
  destruct l as [|x t]; [congruence|].
  assert (H0 : forall j, (j < 0)%nat -> False) by lia.
  destruct (idxmax_aux_spec t [x] 0 x ltac:(simpl; lia) eq_refl
              ltac:(intros y [<-|[]]; apply Qle_refl) ltac:(intros j Hj; lia))
    as [Ma [Mb Mc]].
  destruct (idxmin_aux_spec t [x] 0 x ltac:(simpl; lia) eq_refl
              ltac:(intros y [<-|[]]; apply Qle_refl) ltac:(intros j Hj; lia))
    as [Na [Nb Nc]].
  simpl app in *. simpl length in Ma, Na.
  eexists _, _. split; [reflexivity|]. split; [reflexivity|].
  split; [exact Ma|]. split; [exact Na|]. split; [|split; [exact Mc|exact Nc]].
  intros y Hy. split; [apply Mb, Hy|apply Nb, Hy].
Qed.

End InsightsStatsFacts.

(** ** Facts linking [get_available_laps] to the loader of [process_lap_data] *)
Module LoadDataFacts.
Import Processor LoadData.
Local Open Scope string_scope.
Local Open Scope list_scope.

Lemma zinsert_perm (x : Z) (l : list Z) : Permutation (zinsert x l) (x :: l).
Proof.
  induction l as [|y t IH]; simpl; [reflexivity|].
  destruct (x <=? y)%Z; [reflexivity|].
  etransitivity; [apply perm_skip, IH|apply perm_swap].
Qed.

Lemma zsort_perm (l : list Z) : Permutation (zsort l) l.
Proof.
  induction l as [|x t IH]; simpl; [reflexivity|].
  etransitivity; [apply zinsert_perm|apply perm_skip, IH].
Qed.

Lemma zinsert_hd (a x : Z) (l : list Z) :
  HdRel Z.le a l -> (a <= x)%Z -> HdRel Z.le a (zinsert x l).
Proof.
  intros H Hax. destruct l as [|y t]; simpl; [constructor; exact Hax|].
  destruct (x <=? y)%Z; constructor; [exact Hax|]. inversion H. assumption.
Qed.

Lemma zinsert_sorted (x : Z) (l : list Z) : Sorted Z.le l -> Sorted Z.le (zinsert x l).
Proof.
  induction l as [|y t IH]; intro Hs; simpl; [repeat constructor|].
  destruct (x <=? y)%Z eqn:E.
  - apply Z.leb_le in E. constructor; [exact Hs|constructor; exact E].
  - apply Z.leb_gt in E. inversion Hs as [|? ? Ht Hh]; subst.
    constructor; [apply IH, Ht|]. apply zinsert_hd; [exact Hh|lia].
Qed.

Lemma zsort_sorted (l : list Z) : Sorted Z.le (zsort l).
Proof. induction l as [|x t IH]; simpl; [constructor|]. apply zinsert_sorted, IH. Qed.

Lemma sorted_le_nodup_lt (l : list Z) : Sorted Z.le l -> NoDup l -> Sorted Z.lt l.
Proof.
  induction 1 as [|a l Hs IH Hh]; intro Hn; constructor.
  - apply IH. inversion Hn. assumption.
  - inversion Hn as [|? ? Hna Hnl]; subst. destruct l as [|b t]; constructor.
    inversion Hh; subst. assert (a <> b) by (intro E; subst; apply Hna; left; reflexivity).
    lia.
Qed.

Lemma concat_nonempty_chunks {A : Type} (ll : list (list A)) :
  concat (filter (fun c => match c with [] => false | _ :: _ => true end) ll) = concat ll.
Proof.
  induction ll as [|l ll IH]; simpl; [reflexivity|].
  destruct l; simpl; [exact IH|]. rewrite IH. reflexivity.
Qed.

Lemma load_filtered_rows (src : Source) (vehicle_id : string) (lap : Z) :
  matching_rows src vehicle_id lap <> [] ->
  load_filtered src vehicle_id lap = Loaded (matching_rows src vehicle_id lap).
Proof.
  unfold load_filtered, matching_rows. destruct (has_columns src); [|congruence].
  rewrite ProcessorFacts.filter_concat. intro Hne.
  destruct (filter _ (map (filter (matches vehicle_id lap)) (src_chunks src))) as [|c cs] eqn:E.
  - exfalso. apply Hne. rewrite <- concat_nonempty_chunks, E. reflexivity.
  - rewrite <- E, concat_nonempty_chunks. reflexivity.
Qed.

(** [X11] [get_available_laps] returns [[]] for a missing file; otherwise the
    laps it lists are strictly increasing (no duplicates) and are exactly the
    laps for which [process_lap_data]'s loader finds data for the vehicle: for
    a listed lap it returns the matching rows, and for any other lap it raises
    its [ValueError]. *)
Theorem available_laps_loadable (src : Source) (vehicle_id : string) :
  get_available_laps false src vehicle_id = []
  /\ Sorted Z.lt (get_available_laps true src vehicle_id)
  /\ (forall lap, In lap (get_available_laps true src vehicle_id)
       <-> load_filtered src vehicle_id lap = Loaded (matching_rows src vehicle_id lap))
  /\ (forall lap, ~ In lap (get_available_laps true src vehicle_id) ->
       exists e, load_filtered src vehicle_id lap = LoadFailed e).
Proof.
  split; [reflexivity|].
  set (L := map raw_lap (filter (fun r => String.eqb (raw_vehicle_id r) vehicle_id)
                                 (concat (src_chunks src)))).
  assert (Hmem : forall lap, In lap (get_available_laps true src vehicle_id)
                   <-> matching_rows src vehicle_id lap <> []).
  { intro lap. unfold get_available_laps, matching_rows. simpl negb. cbv iota.
    destruct (has_columns src); [|split; [intros []|congruence]].
    fold L.
    assert (HP : In lap (zsort (nodup Z.eq_dec L)) <-> In lap L).
    { split; intro H.
      - apply (nodup_In Z.eq_dec). eapply Permutation_in; [apply zsort_perm|exact H].
      - apply (Permutation_in _ (Permutation_sym (zsort_perm _))). apply nodup_In, H. }
    rewrite HP.
    unfold L. rewrite in_map_iff. split.
    - intros [r [Er Hr]] E. apply filter_In in Hr as [Hr Hv].
      assert (In r (filter (matches vehicle_id lap) (concat (src_chunks src)))).
      { apply filter_In. split; [exact Hr|]. unfold matches. rewrite Hv, Er, Z.eqb_refl.
        reflexivity. }
      rewrite E in H. destruct H.
    - intro Hne. destruct (filter (matches vehicle_id lap) (concat (src_chunks src)))
        as [|r rs] eqn:E; [congruence|].
      assert (Hr : In r (filter (matches vehicle_id lap) (concat (src_chunks src))))
        by (rewrite E; left; reflexivity).
      apply filter_In in Hr as [Hr Hm]. unfold matches in Hm.
      apply andb_true_iff in Hm as [Hv Hl].
      exists r. split; [apply Z.eqb_eq, Hl|]. apply filter_In. split; assumption. }
  split.
  - unfold get_available_laps. simpl negb. cbv iota. destruct (has_columns src); [|constructor].
    apply sorted_le_nodup_lt; [apply zsort_sorted|].
    apply (Permutation_NoDup (Permutation_sym (zsort_perm _))). apply NoDup_nodup.
  - split.
    + intro lap. rewrite Hmem. split; [apply load_filtered_rows|].
      intros E Hnil. rewrite Hnil in E. unfold load_filtered in E.
      unfold matching_rows in Hnil. destruct (has_columns src); [|discriminate].
      rewrite ProcessorFacts.filter_concat in Hnil.
      rewrite (ProcessorFacts.drop_empty_chunks _ Hnil) in E. discriminate.
    + intros lap Hn. rewrite Hmem in Hn.
      assert (Hnil : matching_rows src vehicle_id lap = []).
      { destruct (matching_rows src vehicle_id lap); [reflexivity|].
        exfalso. apply Hn. discriminate. }
      unfold load_filtered. unfold matching_rows in Hnil.
      destruct (has_columns src); [|eexists; reflexivity].
      rewrite ProcessorFacts.filter_concat in Hnil.
      rewrite (ProcessorFacts.drop_empty_chunks _ Hnil). eexists. reflexivity.
Qed.

End LoadDataFacts.

(** ** Further facts about [processor.py]: filling and required columns *)

Module ProcessorPrepFacts.
Import ProcessorPrep.
Local Open Scope R_scope.
Local Open Scope list_scope.

Lemma ffill_from_cons {A : Type} (lst o : option A) (t : list (option A)) :
  ffill_from lst (o :: t)
  = (match o with Some x => Some x | None => lst end)
    :: ffill_from (match o with Some x => Some x | None => lst end) t.
Proof. destruct o; reflexivity. Qed.

Lemma length_ffill_from {A : Type} (lst : option A) (l : list (option A)) :
  length (ffill_from lst l) = length l.
Proof.
  revert lst. induction l as [|o t IH]; intro lst; [reflexivity|].
  rewrite ffill_from_cons. simpl. rewrite IH. reflexivity.
Qed.

Lemma ffill_from_keeps {A : Type} (lst : option A) (l : list (option A)) (i : nat) (x : A) :
  nth i l None = Some x -> nth i (ffill_from lst l) None = Some x.
Proof.
  revert lst i. induction l as [|[y|] t IH]; intros lst [|i]; simpl; try discriminate; auto.
Qed.

Lemma ffill_from_some {A : Type} (y : A) (l : list (option A)) (o : option A) :
  In o (ffill_from (Some y) l) -> o <> None.
Proof.
  revert y. induction l as [|[x|] t IH]; intros y Ho; simpl in Ho; [contradiction| |];
    destruct Ho as [<-|Ho]; try discriminate; eapply IH; exact Ho.
Qed.

Lemma ffill_from_nones {A : Type} (l : list (option A)) :
  (forall o, In o l -> o = None) -> ffill_from None l = l.
Proof.
  induction l as [|o t IH]; intro H; [reflexivity|].
  rewrite (H o (or_introl eq_refl)). simpl. f_equal.
  apply IH. intros o' Ho'. apply H. right. exact Ho'.
Qed.

Lemma last_cons_ne {A : Type} (a d : A) (r : list A) :
  r <> [] -> List.last (a :: r) d = List.last r d.
Proof. destruct r; [congruence|reflexivity]. Qed.

Lemma last_In_ne {A : Type} (d : A) (r : list A) : r <> [] -> In (List.last r d) r.
Proof.
  intro H. rewrite (app_removelast_last d H) at 2. apply in_or_app. right. left. reflexivity.
Qed.

Lemma ffill_from_last {A : Type} (lst : option A) (l : list (option A)) (d : option A) :
  (exists x, In (Some x) l) -> List.last (ffill_from lst l) d <> None.
Proof.
  revert lst. induction l as [|o t IH]; intros lst [x Hx]; [contradiction|].
  destruct Hx as [->|Hx].
  - change (ffill_from lst (Some x :: t)) with (Some x :: ffill_from (Some x) t).
    assert (Hne : Some x :: ffill_from (Some x) t <> []) by discriminate.
    intro E. apply (last_In_ne d) in Hne. rewrite E in Hne.
    destruct Hne as [Hn|Hn]; [discriminate|]. exact (ffill_from_some x t None Hn eq_refl).
  - destruct t as [|o2 t2]; [contradiction|].
    rewrite ffill_from_cons, last_cons_ne by (rewrite ffill_from_cons; discriminate).
    apply IH. exists x. exact Hx.
Qed.

Lemma nth_some_lt {A : Type} (i : nat) (l : list (option A)) (x : A) :
  nth i l None = Some x -> (i < length l)%nat.
Proof.
  intro H. destruct (Nat.lt_ge_cases i (length l)) as [Hl|Hl]; [exact Hl|].
  rewrite nth_overflow in H by exact Hl. discriminate.
Qed.

Lemma pget_app (f : PFrame) (c c' : string) (v : list R) :
  pget (f ++ [(c, v)]) c'
  = match pget f c' with
    | Some w => Some w
    | None => if String.eqb c' c then Some v else None
    end.
Proof.
  induction f as [|[c0 w] t IH]; simpl; [reflexivity|].
  destruct (String.eqb c' c0); [reflexivity|exact IH].
Qed.

Lemma fill_required_fold (n : nat) (cs : list string) :
  NoDup cs -> forall f : PFrame,
  (forall c v, pget f c = Some v ->
     pget (fold_left (fun f c => if has_col f c then f else f ++ [(c, repeat 0 n)]) cs f) c
     = Some v)
  /\ (forall c, In c cs -> pget f c = None ->
     pget (fold_left (fun f c => if has_col f c then f else f ++ [(c, repeat 0 n)]) cs f) c
     = Some (repeat 0 n))
  /\ map fst (fold_left (fun f c => if has_col f c then f else f ++ [(c, repeat 0 n)]) cs f)
     = map fst f ++ filter (fun c => negb (has_col f c)) cs.
Proof.
  induction cs as [|c cs IH]; intros Hnd f; simpl.
  - split; [auto|split; [contradiction|symmetry; apply app_nil_r]].
  - inversion Hnd as [|? ? Hc Hnd']; subst.
    destruct (has_col f c) eqn:Hcol; simpl.
    + destruct (IH Hnd' f) as [H1 [H2 H3]]. split; [exact H1|split].
      * intros c0 [<-|Hin] Hn; [|auto].
        unfold has_col in Hcol. rewrite Hn in Hcol. discriminate.
      * exact H3.
    + destruct (IH Hnd' (f ++ [(c, repeat 0 n)])) as [H1 [H2 H3]].
      split; [|split].
      * intros c0 v Hv. apply H1. rewrite pget_app, Hv. reflexivity.
      * intros c0 [<-|Hin] Hn.
        -- apply H1. rewrite pget_app, Hn, String.eqb_refl. reflexivity.
        -- apply H2; [exact Hin|]. rewrite pget_app, Hn.
           destruct (String.eqb c0 c) eqn:E; [|reflexivity].
           apply String.eqb_eq in E. subst. contradiction.
      * rewrite H3, map_app, <- app_assoc. simpl. f_equal. f_equal.
        apply filter_ext_in. intros c0 Hin. unfold has_col. rewrite pget_app.
        destruct (pget f c0); [reflexivity|].
        destruct (String.eqb c0 c) eqn:E; [|reflexivity].
        apply String.eqb_eq in E. subst. contradiction.
Qed.

Lemma has_col_pget (f : PFrame) (c : string) (v : list R) :
  pget f c = Some v -> has_col f c = true.
Proof. unfold has_col. intros ->. reflexivity. Qed.

Lemma required_cols_nodup : NoDup required_cols.
Proof. unfold required_cols. repeat constructor; cbv; intuition discriminate. Qed.

(** [X12] Forward then backward filling a column ([ffill().bfill()]) keeps its
    length and every value that was present; when the column holds at least
    one value, no missing value is left; a column with no value at all is
    returned unchanged (all missing). *)
Theorem ffill_bfill_column {A : Type} (l : list (option A)) :
  length (bfill (ffill l)) = length l
  /\ (forall i x, nth i l None = Some x -> nth i (bfill (ffill l)) None = Some x)
  /\ ((exists x, In (Some x) l) -> forall o, In o (bfill (ffill l)) -> o <> None)
  /\ ((forall o, In o l -> o = None) -> bfill (ffill l) = l).
Proof.
  unfold bfill, ffill. split; [|split; [|split]].
  - rewrite length_rev, length_ffill_from, length_rev, length_ffill_from. reflexivity.
  - intros i x Hx.
    pose proof (ffill_from_keeps None l i x Hx) as Hm.
    set (m := ffill_from None l) in *.
    pose proof (nth_some_lt _ _ _ Hm) as Hi.
    rewrite rev_nth by (rewrite length_ffill_from, length_rev; exact Hi).
    rewrite length_ffill_from, length_rev.
    apply ffill_from_keeps. rewrite rev_nth by lia.
    replace (length m - S (length m - S i))%nat with i by lia. exact Hm.
  - intros Hex o Ho.
    set (m := ffill_from None l) in *.
    assert (Hne : m <> []).
    { destruct Hex as [x Hx]. unfold m. intro E.
      apply (f_equal (@length _)) in E. rewrite length_ffill_from in E.
      destruct l; [contradiction|discriminate]. }
    pose proof (ffill_from_last None l None Hex) as Hl. fold m in Hl.
    destruct (List.last m None) as [y|] eqn:Ey; [|congruence].
    apply in_rev in Ho.
    rewrite (app_removelast_last None Hne), Ey, rev_app_distr in Ho. simpl in Ho.
    destruct Ho as [<-|Ho]; [discriminate|].
    exact (ffill_from_some y _ o Ho).
  - intro Hn. rewrite (ffill_from_nones l Hn), ffill_from_nones, rev_involutive.
    + reflexivity.
    + intros o Ho. apply Hn, in_rev, Ho.
Qed.

(** [X13] Filling the required columns on a table of [n] rows keeps every
    column that was there with its values, adds each missing required column
    as [n] zeros, and appends exactly the missing required columns, in the
    order of [required_cols], after the existing ones; afterwards every
    required column is present. *)
Theorem fill_required_columns (n : nat) (f : PFrame) :
  (forall c v, pget f c = Some v -> pget (fill_required n f) c = Some v)
  /\ (forall c, In c required_cols -> pget f c = None ->
      pget (fill_required n f) c = Some (repeat 0 n))
  /\ map fst (fill_required n f) = map fst f ++ filter (fun c => negb (has_col f c)) required_cols
  /\ (forall c, In c required_cols -> has_col (fill_required n f) c = true).
Proof.
  destruct (fill_required_fold n required_cols required_cols_nodup f) as [H1 [H2 H3]].
  unfold fill_required. split; [exact H1|split; [exact H2|split; [exact H3|]]].
  intros c Hc. destruct (pget f c) as [v|] eqn:E.
  - apply (has_col_pget _ _ v), H1, E.
  - apply (has_col_pget _ _ (repeat 0 n)), H2; [exact Hc|exact E].
Qed.

End ProcessorPrepFacts.

(** ** Further facts about [processor.py]: signal ranges and lap distance *)

Module ProcessorExtraFacts.
Import Processor.
Local Open Scope R_scope.
Local Open Scope list_scope.

Lemma fold_Rmax_ge (t : list R) (acc : R) :
  acc <= fold_left Rmax t acc /\ Forall (fun x => x <= fold_left Rmax t acc) t.
Proof.
  revert acc. induction t as [|y t IH]; intro acc; simpl.
  - split; [apply Rle_refl|constructor].
  - destruct (IH (Rmax acc y)) as [H1 H2]. split.
    + eapply Rle_trans; [apply Rmax_l|exact H1].
    + constructor; [eapply Rle_trans; [apply Rmax_r|exact H1]|exact H2].
Qed.

Lemma col_max_ge (l : list R) (m : R) : col_max l = Some m -> Forall (fun x => x <= m) l.
Proof.
  destruct l as [|x t]; simpl; [discriminate|]. intro E. injection E as <-.
  destruct (fold_Rmax_ge t x) as [H1 H2]. constructor; assumption.
Qed.

(** A column whose maximum does not exceed [c] is bounded by [c]. *)
Lemma max_gt_false_bound (l : list R) (c : R) :
  max_gt l c = false -> Forall (fun x => x <= c) l.
Proof.
  unfold max_gt. destruct (col_max l) as [m|] eqn:E.
  - destruct (Rlt_dec c m) as [_|Hn]; [discriminate|]. intros _.
    apply (Forall_impl _ (fun x (Hx : x <= m) => Rle_trans _ _ _ Hx (Rnot_lt_le _ _ Hn))).
    apply col_max_ge, E.
  - intros _. destruct l; [constructor|discriminate].
Qed.

Lemma forall_cols3 (P Q S : R -> Prop) (l : list Wide) :
  Forall P (map Steering_Angle l) -> Forall Q (map throttle l) ->
  Forall S (map brake_pressure l) ->
  Forall (fun r => P (Steering_Angle r) /\ Q (throttle r) /\ S (brake_pressure r)) l.
Proof.
  rewrite !Forall_map, !Forall_forall. intros H1 H2 H3 r Hr. auto.
Qed.

Lemma length_normalize_signals (df : list Wide) :
  length (normalize_signals df) = length df.
Proof.
  rewrite <- (length_map speed (normalize_signals df)), ProcessorFacts.speed_kept.
  apply length_map.
Qed.

Lemma length_out_cols (df : list Wide) :
  length (X_col df) = length df /\ length (Y_col df) = length df
  /\ length (lapdist_col df) = length df.
Proof.
  assert (Hh : length (heading_col df) = length df).
  { unfold heading_col, yaw_rate_col, wheel_angle_col.
    rewrite ProcessorFacts.length_cumsum, !ProcessorFacts.length_zipw,
      ProcessorFacts.length_speed_ms_col, ProcessorFacts.length_dt_col, !length_map. lia. }
  unfold X_col, Y_col, lapdist_col.
  rewrite !ProcessorFacts.length_cumsum, !ProcessorFacts.length_zipw, Hh,
    ProcessorFacts.length_speed_ms_col, ProcessorFacts.length_dt_col.
  repeat split; lia.
Qed.

Lemma diffs_nonneg (p : R) (l : list R) :
  Sorted Rle (p :: l) -> Forall (Rle 0) (diffs p l).
Proof.
  revert p. induction l as [|x t IH]; intros p Hs; simpl; [constructor|].
  apply Sorted_inv in Hs as [Hs Hh]. apply HdRel_inv in Hh.
  constructor; [lra|apply IH, Hs].
Qed.

Lemma time_deltas_nonneg (ts : list R) : Sorted Rle ts -> Forall (Rle 0) (time_deltas ts).
Proof.
  destruct ts as [|t0 rest]; simpl; intro Hs; [constructor|].
  constructor; [apply Rle_refl|apply diffs_nonneg, Hs].
Qed.

Lemma zipw_mult_nonneg (a b : list R) :
  Forall (Rle 0) a -> Forall (Rle 0) b -> Forall (Rle 0) (zipw Rmult a b).
Proof.
  revert b. induction a as [|x a IH]; intros [|y b] Ha Hb; unfold zipw; simpl; try constructor.
  - inversion Ha; inversion Hb; subst. apply Rmult_le_pos; assumption.
  - inversion Ha; inversion Hb; subst. apply IH; assumption.
Qed.

Lemma cumsum_from_mono (acc : R) (l : list R) :
  Forall (Rle 0) l -> Sorted Rle (acc :: cumsum_from acc l) /\ Forall (Rle acc) (cumsum_from acc l).
Proof.
  revert acc. induction l as [|x t IH]; intros acc Hl; simpl.
  - split; repeat constructor.
  - inversion Hl as [|? ? Hx Ht]; subst. destruct (IH (acc + x) Ht) as [H1 H2].
    split.
    + constructor; [exact H1|constructor; lra].
    + constructor; [lra|]. eapply Forall_impl; [|exact H2]. intros y Hy. simpl in Hy. lra.
Qed.

Lemma cumsum_mono (l : list R) :
  Forall (Rle 0) l -> Sorted Rle (cumsum l) /\ Forall (Rle 0) (cumsum l).
Proof.
  destruct l as [|x t]; simpl; intro Hl; [split; constructor|].
  inversion Hl as [|? ? Hx Ht]; subst. destruct (cumsum_from_mono x t Ht) as [H1 H2].
  split; [exact H1|]. constructor; [exact Hx|].
  eapply Forall_impl; [|exact H2]. intros y Hy. simpl in Hy. lra.
Qed.

(** [X14] Normalising a table whose raw steering lies in [[-450, 450]], whose
    raw throttle lies in [[0, 100]] and whose raw brake pressure is
    non-negative gives, on every row, a steering in [[-1, 1]], a throttle in
    [[0, 1]] and a brake pressure in [[0, 1]]. *)
Theorem normalized_signal_ranges (wide : list Wide)
  (Hs : Forall (fun r => -450 <= Steering_Angle r <= 450) wide)
  (Ht : Forall (fun r => 0 <= throttle r <= 100) wide)
  (Hb : Forall (fun r => 0 <= brake_pressure r) wide) :
  Forall (fun r => -1 <= Steering_Angle r <= 1 /\ 0 <= throttle r <= 1
                   /\ 0 <= brake_pressure r <= 1) (normalize_signals wide).
Proof.
  apply (forall_cols3 (fun x => -1 <= x <= 1) (fun x => 0 <= x <= 1) (fun x => 0 <= x <= 1)).
  - unfold normalize_signals. rewrite ProcessorFacts.steering_kept_later.
    unfold normalize_steering. rewrite map_map. simpl. rewrite Forall_map.
    eapply Forall_impl; [|exact Hs]. intros r Hr. simpl in Hr.
    unfold Rdiv. split; lra.
  - unfold normalize_signals. rewrite ProcessorFacts.throttle_kept_by_brake.
    unfold normalize_throttle. rewrite ProcessorFacts.throttle_after_steering.
    destruct (max_gt (map throttle wide) 1) eqn:E.
    + rewrite map_map. simpl.
      fold (map (fun r => throttle r / 100) (normalize_steering wide)).
      rewrite <- (map_map throttle (fun x => x / 100)), ProcessorFacts.throttle_after_steering.
      rewrite map_map, Forall_map. eapply Forall_impl; [|exact Ht]. intros r Hr. simpl in Hr.
      unfold Rdiv. split; lra.
    + rewrite ProcessorFacts.throttle_after_steering.
      pose proof (max_gt_false_bound _ _ E) as Hle.
      rewrite Forall_map in Hle |- *. rewrite Forall_forall in Hle, Ht |- *.
      intros r Hr. specialize (Hle r Hr). specialize (Ht r Hr). simpl in *. lra.
  - unfold normalize_signals.
    set (d2 := normalize_throttle (normalize_steering wide)).
    assert (Eb : map brake_pressure d2 = map brake_pressure wide)
      by (unfold d2; rewrite ProcessorFacts.brake_after_throttle,
            ProcessorFacts.brake_after_steering; reflexivity).
    unfold normalize_brake. rewrite Eb.
    destruct (max_gt (map brake_pressure wide) 0) eqn:E.
    + destruct (col_max (map brake_pressure wide)) as [m|] eqn:Em.
      * assert (Hm : 0 < m).
        { unfold max_gt in E. rewrite Em in E. destruct (Rlt_dec 0 m); [assumption|discriminate]. }
        pose proof (col_max_ge _ _ Em) as Hle.
        rewrite map_map. simpl.
        fold (map (fun r => brake_pressure r / m) d2).
        rewrite <- (map_map brake_pressure (fun x => x / m)), Eb, map_map, Forall_map.
        rewrite Forall_map in Hle. rewrite Forall_forall in Hle, Hb |- *.
        intros r Hr. specialize (Hle r Hr). specialize (Hb r Hr). simpl in *.
        split.
        -- apply Rmult_le_pos; [exact Hb|apply Rlt_le, Rinv_0_lt_compat, Hm].
        -- apply (Rmult_le_reg_r m); [exact Hm|].
           unfold Rdiv. rewrite Rmult_assoc, Rinv_l by lra. lra.
      * rewrite Eb. destruct wide; [constructor|discriminate].
    + rewrite Eb. pose proof (max_gt_false_bound _ _ E) as Hle.
      rewrite Forall_map in Hle |- *. rewrite Forall_forall in Hle, Hb |- *.
      intros r Hr. specialize (Hle r Hr). specialize (Hb r Hr). simpl in *. lra.
Qed.

Lemma normalized_signal_ranges_witness :
  let wide := [mkWide 0 (-90) 80 12 0 0 50; mkWide 1 450 0 0 0 0 60] in
  Forall (fun r => -450 <= Steering_Angle r <= 450) wide
  /\ Forall (fun r => 0 <= throttle r <= 100) wide
  /\ Forall (fun r => 0 <= brake_pressure r) wide
  /\ Forall (fun r => -1 <= Steering_Angle r <= 1 /\ 0 <= throttle r <= 1
                       /\ 0 <= brake_pressure r <= 1) (normalize_signals wide).
Proof.
  intro wide.
  assert (Hs : Forall (fun r => -450 <= Steering_Angle r <= 450) wide)
    by (repeat constructor; simpl; lra).
  assert (Ht : Forall (fun r => 0 <= throttle r <= 100) wide)
    by (repeat constructor; simpl; lra).
  assert (Hb : Forall (fun r => 0 <= brake_pressure r) wide)
    by (repeat constructor; simpl; lra).
  split; [exact Hs|split; [exact Ht|split; [exact Hb|]]].
  apply (normalized_signal_ranges wide Hs Ht Hb).
Defined.

(** [X15] When the timestamps are in nondecreasing order and the speeds are
    non-negative, the returned [Laptrigger_lapdist_dls] column has one value
    per row, starts at 0, never decreases and is never negative. *)
Theorem lapdist_nondecreasing (wide : list Wide)
  (Hts : Sorted Rle (map timestamp wide))
  (Hsp : Forall (fun r => 0 <= speed r) wide) :
  length (map o_lapdist (process_wide wide)) = length wide
  /\ (wide <> [] -> hd_error (map o_lapdist (process_wide wide)) = Some 0)
  /\ Sorted Rle (map o_lapdist (process_wide wide))
  /\ Forall (Rle 0) (map o_lapdist (process_wide wide)).
Proof.
  set (df := normalize_signals wide).
  destruct (length_out_cols df) as [LX [LY LD]].
  assert (Ldf : length df = length wide) by apply length_normalize_signals.
  assert (Hcol : map o_lapdist (process_wide wide) = lapdist_col df).
  { unfold process_wide. fold df.
    rewrite <- (map_map (fun o => (o_X o, o_Y o, o_lapdist o)) snd).
    rewrite ProcessorFacts.assemble_cols by (rewrite ?ProcessorFacts.length_dt_col; auto).
    apply ProcessorFacts.map_snd_combine.
    rewrite length_combine, LX, LY, LD. lia. }
  rewrite Hcol.
  assert (Hv : Forall (Rle 0) (speed_ms_col df)).
  { assert (Hsp' : Forall (Rle 0) (map speed df)).
    { unfold df. rewrite ProcessorFacts.speed_kept, Forall_map. exact Hsp. }
    unfold speed_ms_col. destruct (max_gt _ _); [|exact Hsp'].
    rewrite <- (map_map speed (fun x => x / 3.6)), Forall_map.
    eapply Forall_impl; [|exact Hsp']. intros x Hx. unfold Rdiv. lra. }
  assert (Hdt : Forall (Rle 0) (dt_col df)).
  { unfold dt_col. apply time_deltas_nonneg. unfold df. rewrite ProcessorFacts.timestamp_kept.
    exact Hts. }
  destruct (cumsum_mono _ (zipw_mult_nonneg _ _ Hv Hdt)) as [Hso Hnn].
  split; [|split; [|split; [exact Hso|exact Hnn]]].
  - rewrite LD. exact Ldf.
  - intro Hne. destruct df as [|r df'] eqn:Edf.
    + destruct wide; [contradiction|discriminate].
    + unfold lapdist_col. destruct (ProcessorFacts.dt_col_cons r df') as [t Et]. rewrite Et.
      destruct (cumsum (zipw Rmult (speed_ms_col (r :: df')) (0 :: t))) as [|x l] eqn:Ec.
      * apply (f_equal (@length _)) in Ec.
        rewrite ProcessorFacts.length_cumsum, ProcessorFacts.length_zipw,
          ProcessorFacts.length_speed_ms_col in Ec. simpl in Ec. discriminate.
      * rewrite (ProcessorFacts.cumsum_first_zero _ _ _ _ Ec). reflexivity.
Qed.

Lemma lapdist_nondecreasing_witness :
  let wide := [mkWide 0 0 0 0 0 0 10; mkWide 1 0 0 0 0 0 20; mkWide 3 0 0 0 0 0 0] in
  Sorted Rle (map timestamp wide) /\ Forall (fun r => 0 <= speed r) wide
  /\ Sorted Rle (map o_lapdist (process_wide wide)).
Proof.
  intro wide.
  assert (Hts : Sorted Rle (map timestamp wide))
    by (simpl; repeat constructor; lra).
  assert (Hsp : Forall (fun r => 0 <= speed r) wide)
    by (repeat constructor; simpl; lra).
  split; [exact Hts|split; [exact Hsp|]].
  apply (lapdist_nondecreasing wide Hts Hsp).
Defined.

End ProcessorExtraFacts.

(** ** Further facts about [segment_lap.py] *)

Module SegmentLapExtraFacts.
Import SegmentLap.
Local Open Scope Q_scope.

Lemma astype_int_length (l : list quot) (ids : list Z) :
  astype_int l = Some ids -> length ids = length l.
Proof.
  revert ids. induction l as [|[z| | |] t IH]; intros ids H; simpl in H; try discriminate.
  - injection H as <-. reflexivity.
  - destruct (astype_int t) as [ids'|] eqn:E; simpl in H; [|discriminate].
    injection H as <-. simpl. f_equal. apply IH. reflexivity.
Qed.

Lemma assign_col_rows (df : list Row) (ids : list Z) :
  length ids = length df -> map srow (assign_col df ids) = df.
Proof.
  revert ids. induction df as [|r df IH]; intros [|z ids] H; simpl in *; try discriminate;
    [reflexivity|]. unfold assign_col in *. simpl. f_equal. apply IH. congruence.
Qed.

Lemma assign_col_ids (df : list Row) (ids : list Z) (s : SegRow) :
  In s (assign_col df ids) -> In (segment_id s) ids.
Proof.
  unfold assign_col. intro H. apply in_map_iff in H as [[r z] [<- Hp]].
  simpl. exact (in_combine_r _ _ _ _ Hp).
Qed.

(** [X16] Whenever [segment_lap] returns a table, whatever the distances and
    the segment count, that table holds exactly the input rows (a
    permutation of them), sorted by ascending distance, and no segment id
    exceeds [num_segments - 1]. *)
Theorem segment_lap_ok_rows (rows : list Row) (n : Z) (out : list SegRow)
  (Hok : segment_lap rows n = Ok out) :
  Permutation (map srow out) rows
  /\ Sorted (fun a b => lapdist a <= lapdist b) (map srow out)
  /\ (forall s, In s out -> (segment_id s <= n - 1)%Z).
Proof.
  unfold segment_lap in Hok. cbv zeta in Hok.
  destruct (astype_int _) as [ids|] eqn:Ea; [|discriminate].
  injection Hok as <-.
  apply astype_int_length in Ea. rewrite length_map in Ea.
  assert (Hr : map srow (assign_col (sort_values rows) (clip_upper ids (n - 1)))
               = sort_values rows).
  { apply assign_col_rows. unfold clip_upper. rewrite length_map. exact Ea. }
  rewrite Hr. split; [apply SegmentLapFacts.sort_values_perm|split].
  - exact (SegmentLapFacts.sort_values_sorted rows).
  - intros s Hs. apply assign_col_ids in Hs. unfold clip_upper in Hs.
    apply in_map_iff in Hs as [z [<- _]]. apply Z.le_min_r.
Qed.

Lemma segment_lap_ok_rows_witness :
  segment_lap [mkRow 0 (-10); mkRow 1 10] 2
    = Ok [mkSegRow (mkRow 0 (-10)) (-2); mkSegRow (mkRow 1 10) 1]
  /\ Permutation (map srow [mkSegRow (mkRow 0 (-10)) (-2); mkSegRow (mkRow 1 10) 1])
       [mkRow 0 (-10); mkRow 1 10].
Proof.
  assert (Hok : segment_lap [mkRow 0 (-10); mkRow 1 10] 2
                = Ok [mkSegRow (mkRow 0 (-10)) (-2); mkSegRow (mkRow 1 10) 1])
    by (vm_compute; reflexivity).
  split; [exact Hok|]. exact (proj1 (segment_lap_ok_rows _ _ _ Hok)).
Defined.

(** [X17] With a segment count [num_segments <= 0] and a positive maximum
    distance, [segment_lap] does not fail: it returns all the rows and gives
    every one of them the id [num_segments - 1], outside [[0, num_segments)]. *)
Theorem segment_lap_nonpositive_count (rows : list Row) (n : Z)
  (Hpos : max_pos rows) (Hn : (n <= 0)%Z) :
  exists out, segment_lap rows n = Ok out
    /\ Permutation (map srow out) rows
    /\ (forall s, In s out -> segment_id s = (n - 1)%Z).
Proof.
  destruct Hpos as [m [Hm Hm0]].
  rewrite (SegmentLapFacts.segment_lap_pos rows n m Hm Hm0).
  eexists. split; [reflexivity|split].
  - rewrite map_map. simpl. rewrite map_id. apply SegmentLapFacts.sort_values_perm.
  - intros s Hs. apply in_map_iff in Hs as [r [<- Hr]]. simpl.
    destruct (Z.eq_dec n 0) as [->|Hn0].
    + unfold seg_of. simpl. destruct (Qle_bool 0 (lapdist r)); reflexivity.
    + apply SegmentLapFacts.seg_of_neg; [exact Hm0|lia|].
      apply (proj2 (SegmentLapFacts.series_max_spec rows m Hm)).
      apply (Permutation_in _ (SegmentLapFacts.sort_values_perm rows)), Hr.
Qed.

Lemma segment_lap_nonpositive_count_witness :
  max_pos [mkRow 0 10; mkRow 1 4]
  /\ exists out, segment_lap [mkRow 0 10; mkRow 1 4] (-3) = Ok out
    /\ Permutation (map srow out) [mkRow 0 10; mkRow 1 4]
    /\ (forall s, In s out -> segment_id s = (-4)%Z).
Proof.
  assert (Hp : max_pos [mkRow 0 10; mkRow 1 4]).
  { exists 10. split; [vm_compute; reflexivity|reflexivity]. }
  split; [exact Hp|]. exact (segment_lap_nonpositive_count _ (-3) Hp ltac:(lia)).
Defined.

End SegmentLapExtraFacts.

(** ** Further facts about [insights.py]: the top-5 tables *)

Module InsightsTopFacts.
Import InsightsStats.
Local Open Scope Q_scope.
Local Open Scope list_scope.

Lemma rinsert_desc_perm (x : SegRow) (l : list SegRow) : Permutation (rinsert_desc x l) (x :: l).
Proof.
  induction l as [|y t IH]; simpl; [reflexivity|].
  destruct (Qle_bool _ _); [reflexivity|].
  etransitivity; [apply perm_skip, IH|apply perm_swap].
Qed.

Lemma rinsert_asc_perm (x : SegRow) (l : list SegRow) : Permutation (rinsert_asc x l) (x :: l).
Proof.
  induction l as [|y t IH]; simpl; [reflexivity|].
  destruct (Qle_bool _ _); [reflexivity|].
  etransitivity; [apply perm_skip, IH|apply perm_swap].
Qed.

Lemma sort_desc_perm (l : list SegRow) : Permutation (sort_desc l) l.
Proof.
  induction l as [|x t IH]; simpl; [reflexivity|].
  etransitivity; [apply rinsert_desc_perm|apply perm_skip, IH].
Qed.

Lemma sort_asc_perm (l : list SegRow) : Permutation (sort_asc l) l.
Proof.
  induction l as [|x t IH]; simpl; [reflexivity|].
  etransitivity; [apply rinsert_asc_perm|apply perm_skip, IH].
Qed.

Lemma Qle_bool_false_lt (a b : Q) : Qle_bool a b = false -> b <= a.
Proof.
  intro H. apply Qlt_le_weak, Qnot_le_lt. intro H'. apply Qle_bool_iff in H'. congruence.
Qed.

Definition cli_ge (a b : SegRow) : Prop := sr_cli_smooth b <= sr_cli_smooth a.
Definition cli_le (a b : SegRow) : Prop := sr_cli_smooth a <= sr_cli_smooth b.

Lemma rinsert_desc_hd (a x : SegRow) (l : list SegRow) :
  HdRel cli_ge a l -> cli_ge a x -> HdRel cli_ge a (rinsert_desc x l).
Proof.
  intros H Hax. destruct l as [|y t]; simpl; [constructor; exact Hax|].
  destruct (Qle_bool _ _); constructor; [exact Hax|]. inversion H; assumption.
Qed.

Lemma rinsert_desc_sorted (x : SegRow) (l : list SegRow) :
  Sorted cli_ge l -> Sorted cli_ge (rinsert_desc x l).
Proof.
  induction 1 as [|y t Ht IH Hd]; simpl; [repeat constructor|].
  destruct (Qle_bool (sr_cli_smooth y) (sr_cli_smooth x)) eqn:E.
  - constructor; [constructor; assumption|constructor]. apply Qle_bool_iff, E.
  - constructor; [exact IH|]. apply rinsert_desc_hd; [exact Hd|].
    apply Qle_bool_false_lt, E.
Qed.

Lemma rinsert_asc_hd (a x : SegRow) (l : list SegRow) :
  HdRel cli_le a l -> cli_le a x -> HdRel cli_le a (rinsert_asc x l).
Proof.
  intros H Hax. destruct l as [|y t]; simpl; [constructor; exact Hax|].
  destruct (Qle_bool _ _); constructor; [exact Hax|]. inversion H; assumption.
Qed.

Lemma rinsert_asc_sorted (x : SegRow) (l : list SegRow) :
  Sorted cli_le l -> Sorted cli_le (rinsert_asc x l).
Proof.
  induction 1 as [|y t Ht IH Hd]; simpl; [repeat constructor|].
  destruct (Qle_bool (sr_cli_smooth x) (sr_cli_smooth y)) eqn:E.
  - constructor; [constructor; assumption|constructor]. apply Qle_bool_iff, E.
  - constructor; [exact IH|]. apply rinsert_asc_hd; [exact Hd|].
    apply Qle_bool_false_lt, E.
Qed.

Lemma sort_desc_sorted (l : list SegRow) : Sorted cli_ge (sort_desc l).
Proof. induction l; simpl; [constructor|apply rinsert_desc_sorted; assumption]. Qed.

Lemma sort_asc_sorted (l : list SegRow) : Sorted cli_le (sort_asc l).
Proof. induction l; simpl; [constructor|apply rinsert_asc_sorted; assumption]. Qed.

Lemma strongly_sorted_app {A : Type} (Rel : A -> A -> Prop) (l1 l2 : list A) :
  StronglySorted Rel (l1 ++ l2) -> forall a b, In a l1 -> In b l2 -> Rel a b.
Proof.
  induction l1 as [|x l1 IH]; simpl; intros H a b Ha Hb; [contradiction|].
  apply StronglySorted_inv in H as [H Hf].
  destruct Ha as [<-|Ha].
  - rewrite Forall_forall in Hf. apply Hf, in_or_app. right. exact Hb.
  - exact (IH H a b Ha Hb).
Qed.

Lemma sorted_firstn {A : Type} (Rel : A -> A -> Prop) (k : nat) (l : list A) :
  Sorted Rel l -> Sorted Rel (firstn k l).
Proof.
  revert l. induction k as [|k IH]; intros l H; [constructor|].
  destruct l as [|x t]; simpl; [constructor|].
  apply Sorted_inv in H as [Ht Hd]. constructor; [apply IH, Ht|].
  destruct k; simpl; [constructor|]. destruct t; simpl; [constructor|].
  inversion Hd; constructor; assumption.
Qed.

Lemma head_split {A : Type} (Rel : A -> A -> Prop) (k : nat) (l segs : list A) :
  (forall a b c, Rel a b -> Rel b c -> Rel a c) ->
  Permutation l segs -> Sorted Rel l ->
  length (firstn k l) = Nat.min k (length segs)
  /\ Sorted Rel (firstn k l)
  /\ exists rest, Permutation (firstn k l ++ rest) segs
       /\ forall a b, In a (firstn k l) -> In b rest -> Rel a b.
Proof.
  intros Htr Hp Hs. split; [|split].
  - rewrite length_firstn, (Permutation_length Hp). reflexivity.
  - apply sorted_firstn, Hs.
  - exists (skipn k l). rewrite firstn_skipn. split; [exact Hp|].
    apply strongly_sorted_app. rewrite firstn_skipn.
    apply Sorted_StronglySorted; [exact Htr|exact Hs].
Qed.

(** [X18] The two top-5 tables: [top_5_high] has [min 5 n] rows of the [n]
    segments, in non-increasing order of [CLI_smooth], and no segment left
    out has a larger [CLI_smooth] than one in it; [top_5_low] is the same
    with non-decreasing order and smaller values. *)
Theorem top_5_tables (segs : list SegRow) :
  length (top_5_high segs) = Nat.min 5 (length segs)
  /\ Sorted (fun a b => sr_cli_smooth b <= sr_cli_smooth a) (top_5_high segs)
  /\ (exists rest, Permutation (top_5_high segs ++ rest) segs
       /\ forall a b, In a (top_5_high segs) -> In b rest -> sr_cli_smooth b <= sr_cli_smooth a)
  /\ length (top_5_low segs) = Nat.min 5 (length segs)
  /\ Sorted (fun a b => sr_cli_smooth a <= sr_cli_smooth b) (top_5_low segs)
  /\ (exists rest, Permutation (top_5_low segs ++ rest) segs
       /\ forall a b, In a (top_5_low segs) -> In b rest -> sr_cli_smooth a <= sr_cli_smooth b).
Proof.
  destruct (head_split cli_ge 5 _ segs
              (fun a b c (H1 : cli_ge a b) (H2 : cli_ge b c) => Qle_trans _ _ _ H2 H1)
              (sort_desc_perm segs) (sort_desc_sorted segs)) as [H1 [H2 H3]].
  destruct (head_split cli_le 5 _ segs
              (fun a b c (H1 : cli_le a b) (H2 : cli_le b c) => Qle_trans _ _ _ H1 H2)
              (sort_asc_perm segs) (sort_asc_sorted segs)) as [H4 [H5 H6]].
  unfold top_5_high, top_5_low.
  split; [exact H1|split; [exact H2|split; [exact H3|split; [exact H4|split; [exact H5|exact H6]]]]].
Qed.

End InsightsTopFacts.
